(** * Path resolution of an HTTP request against an OpenAPI contract

    A shallow embedding of [paths.FindPath] and [paths.comparePaths]
    (package [paths], Go), together with the functions of the Go standard
    library they call, and the properties of the resolver that follow. *)

From Stdlib Require Import ZArith Ascii String.
From stdpp Require Import gmap strings list fin_maps.

Local Open Scope Z_scope.

(** ** Outcomes of Go code that may panic

    A Go function either returns its results or panics at run time (a slice
    expression out of range, an index out of range).  [Panics] carries no
    payload: nothing in the resolver recovers from a panic. *)

Inductive outcome (A : Type) : Type :=
  | Returns (a : A)
  | Panics.
Arguments Returns {A} a.
Arguments Panics {A}.

#[global] Instance outcome_ret : MRet outcome := λ A a, Returns a.

#[global] Instance outcome_bind : MBind outcome := λ A B k m,
  match m with
  | Returns a => k a
  | Panics => Panics
  end.

(** ** Go standard library: package [strings] *)

Module strings.

(** [strings.Split(s, sep)] for a one-byte separator: the pieces of [s]
    between the occurrences of [sep]; [n] occurrences give [n + 1] pieces,
    so the result is never empty. *)
Fixpoint Split1 (s : string) (sep : ascii) : list string :=
  match s with
  | EmptyString => [EmptyString]
  | String c s' =>
      if decide (c = sep) then EmptyString :: Split1 s' sep
      else match Split1 s' sep with
           | piece :: pieces => String c piece :: pieces
           | [] => [String c EmptyString]
           end
  end.

(** [strings.Contains(s, substr)]: [substr] occurs somewhere in [s]. *)
Fixpoint Contains (s substr : string) : bool :=
  String.prefix substr s ||
  match s with
  | EmptyString => false
  | String _ s' => Contains s' substr
  end.

(** [strings.Join(elems, sep)]. *)
Definition Join (elems : list string) (sep : string) : string :=
  String.concat sep elems.

(** [strings.HasPrefix(s, prefix)]. *)
Definition HasPrefix (s prefix : string) : bool := String.prefix prefix s.

End strings.

(** The separator of both [strings.Split] calls of the resolver. *)
Definition slash : ascii := "/"%char.

(** ** Go standard library: package [path/filepath] (Unix) *)

Module filepath.

(** One path component read by [Clean], on the components written so far
    ([out], last written first).  An empty component and [.] are dropped;
    [..] removes the last written component when there is one that is not
    itself part of a leading [../..] prefix, is dropped at the root, and is
    written otherwise; any other component is written. *)
Definition clean_step (rooted : bool) (out : list string) (c : string)
  : list string :=
  if decide (c = "") then out
  else if decide (c = ".") then out
  else if decide (c = "..") then
    match out with
    | top :: out' => if decide (top = "..") then c :: out else out'
    | [] => if rooted then [] else [c]
    end
  else c :: out.

(** [filepath.Clean(path)]: the shortest path name equivalent to [path] by
    purely lexical processing. *)
Definition Clean (path : string) : string :=
  if decide (path = "") then "."
  else
    let rooted := String.prefix "/" path in
    let out := fold_left (clean_step rooted) (strings.Split1 path slash) [] in
    let body := strings.Join (rev out) "/" in
    if rooted then "/" +:+ body
    else if decide (body = "") then "." else body.

(** [filepath.Join(elem...)]: empty elements before the first non-empty one
    are ignored, the rest is joined with the separator and cleaned; with no
    non-empty element the result is the empty string. *)
Fixpoint Join (elem : list string) : string :=
  match elem with
  | [] => ""
  | e :: rest =>
      if decide (e = "") then Join rest
      else Clean (strings.Join elem "/")
  end.

End filepath.


(** ** Go standard library: package [strconv]

    [comparePaths] only looks at whether [strconv.ParseFloat(s, 64)] returns
    an error.  [ParseFloat_ok s] is that test ([err == nil]): [s] is one of
    the special values, or a decimal or hexadecimal floating-point literal
    in the syntax [readFloat] accepts whose value does not round to an
    infinity.  The resolver below is parametric in this test; the model here
    instantiates it on concrete requests. *)

Module strconv.

Definition code (c : ascii) : N := N_of_ascii c.

(** [lower(c)] is [c | ('x' - 'X')]. *)
Definition lower (c : ascii) : N := N.lor (code c) 32.

Definition is_digit (c : ascii) : bool :=
  ((48 <=? code c) && (code c <=? 57))%N.

Definition is_hex_letter (c : ascii) : bool :=
  ((97 <=? lower c) && (lower c <=? 102))%N.

Definition digit_val (c : ascii) : Z := Z.of_N (code c) - 48.

Definition hex_letter_val (c : ascii) : Z := Z.of_N (lower c) - 97 + 10.

Definition is_sign (c : ascii) : bool :=
  bool_decide (c = "+"%char) || bool_decide (c = "-"%char).

(** [commonPrefixLenIgnoreCase(s, prefix)], [prefix] in lower case. *)
Definition fold_case (c : ascii) : ascii :=
  if ((65 <=? code c) && (code c <=? 90))%N then ascii_of_N (code c + 32)
  else c.

Fixpoint commonPrefixLenIgnoreCase (s prefix : string) : nat :=
  match s, prefix with
  | String c s', String p prefix' =>
      if decide (fold_case c = p)
      then S (commonPrefixLenIgnoreCase s' prefix') else O
  | _, _ => O
  end.

(** [special(s)]: the number of bytes of a leading, possibly signed,
    [inf] or [infinity], or unsigned [nan], in any case. *)
Definition special_inf (nsign : nat) (s : string) : option nat :=
  let n := commonPrefixLenIgnoreCase s "infinity" in
  let n := if (3 <? n)%nat && (n <? 8)%nat then 3%nat else n in
  if (n =? 3)%nat || (n =? 8)%nat then Some (nsign + n)%nat else None.

Definition special (s : string) : option nat :=
  match s with
  | EmptyString => None
  | String c s' =>
      if is_sign c then special_inf 1 s'
      else if (lower c =? 105)%N then special_inf 0 s
      else if (lower c =? 110)%N then
        if (commonPrefixLenIgnoreCase s "nan" =? 3)%nat then Some 3%nat
        else None
      else None
  end.

(** The mantissa as [readFloat] scans it.  [digits] is the integer the
    digits read so far spell in the base of the literal and [nfrac] the
    number of them after the point, so that the mantissa is
    [digits * base ^ (- nfrac)]. *)
Record scan : Type := Scan {
  digits : Z;
  nfrac : Z;
  sawdot : bool;
  sawdigits : bool;
  underscores : bool
}.

Definition push (base d : Z) (st : scan) : scan :=
  {| digits := digits st * base + d;
     nfrac := if sawdot st then nfrac st + 1 else nfrac st;
     sawdot := sawdot st;
     sawdigits := true;
     underscores := underscores st |}.

Fixpoint readMantissa (hex : bool) (s : string) (st : scan) : scan * string :=
  match s with
  | EmptyString => (st, s)
  | String c s' =>
      if decide (c = "_"%char) then
        readMantissa hex s'
          {| digits := digits st; nfrac := nfrac st; sawdot := sawdot st;
             sawdigits := sawdigits st; underscores := true |}
      else if decide (c = "."%char) then
        if sawdot st then (st, s)
        else readMantissa hex s'
          {| digits := digits st; nfrac := nfrac st; sawdot := true;
             sawdigits := sawdigits st; underscores := underscores st |}
      else if is_digit c then
        readMantissa hex s' (push (if hex then 16 else 10) (digit_val c) st)
      else if hex && is_hex_letter c then
        readMantissa hex s' (push 16 (hex_letter_val c) st)
      else (st, s)
  end.

(** The digits of the exponent; the exponent stops growing at 10000. *)
Fixpoint readExponent (s : string) (e : Z) (us : bool) : Z * bool * string :=
  match s with
  | EmptyString => (e, us, s)
  | String c s' =>
      if is_digit c then
        readExponent s' (if e <? 10000 then e * 10 + digit_val c else e) us
      else if decide (c = "_"%char) then readExponent s' e true
      else (e, us, s)
  end.

(** [underscoreOK(s)]: an underscore only between digits, or between a base
    prefix and a digit. *)
Fixpoint underscoreScan (hex : bool) (s : string) (saw : ascii) : bool :=
  match s with
  | EmptyString => negb (bool_decide (saw = "_"%char))
  | String c s' =>
      if is_digit c || (hex && is_hex_letter c) then
        underscoreScan hex s' "0"%char
      else if decide (c = "_"%char) then
        if decide (saw = "0"%char) then underscoreScan hex s' "_"%char
        else false
      else if decide (saw = "_"%char) then false
      else underscoreScan hex s' "!"%char
  end.

Definition underscoreOK (s : string) : bool :=
  let s := match s with
           | String c s' => if is_sign c then s' else s
           | EmptyString => s
           end in
  match s with
  | String z (String p r) =>
      if bool_decide (z = "0"%char) &&
         ((lower p =? 98)%N || (lower p =? 111)%N || (lower p =? 120)%N)
      then underscoreScan (lower p =? 120)%N r "0"%char
      else underscoreScan false s "^"%char
  | _ => underscoreScan false s "^"%char
  end.

(** [readFloat(s)]: whether the literal is hexadecimal, the integer its
    mantissa digits spell, the power of the base (10, or 2 for a hexadecimal
    literal) that scales it, and what is left of [s] after the literal. *)
Definition readFloat (s : string) : option (bool * Z * Z * string) :=
  let s1 := match s with
            | String c s' => if is_sign c then s' else s
            | EmptyString => s
            end in
  let '(hex, s2) :=
    match s1 with
    | String z (String x (String c r)) =>
        if bool_decide (z = "0"%char) && (lower x =? 120)%N
        then (true, String c r) else (false, s1)
    | _ => (false, s1)
    end in
  let '(st, s3) :=
    readMantissa hex s2
      {| digits := 0; nfrac := 0; sawdot := false; sawdigits := false;
         underscores := false |} in
  let scale := if hex then 4 * nfrac st else nfrac st in
  let finish (e : Z) (us : bool) (rest : string) :=
    let consumed :=
      String.substring 0 (String.length s - String.length rest) s in
    if us && negb (underscoreOK consumed) then None
    else Some (hex, digits st, e - scale, rest) in
  if negb (sawdigits st) then None
  else
    match s3 with
    | String c s4 =>
        if (lower c =? (if hex then 112 else 101))%N then
          let '(esign, s5) :=
            match s4 with
            | String sg s5 =>
                if decide (sg = "+"%char) then (1, s5)
                else if decide (sg = "-"%char) then (-1, s5)
                else (1, s4)
            | EmptyString => (1, s4)
            end in
          match s5 with
          | String d _ =>
              if is_digit d then
                let '(e, us, rest) := readExponent s5 0 (underscores st) in
                finish (e * esign) us rest
              else None
          | EmptyString => None
          end
        else if hex then None
        else finish 0 (underscores st) s3
    | EmptyString => if hex then None else finish 0 (underscores st) s3
    end.

(** Half an ulp above the largest [float64]: a magnitude from here on
    rounds to an infinity, which [ParseFloat] reports as a range error. *)
Definition overflow_threshold : Z := 2 ^ 1024 - 2 ^ 970.

Definition overflows (hex : bool) (m k : Z) : bool :=
  let b := if hex then 2 else 10 in
  if 0 <=? k then overflow_threshold <=? m * b ^ k
  else overflow_threshold * b ^ (- k) <=? m.

Definition ParseFloat_ok (s : string) : bool :=
  match special s with
  | Some n => (n =? String.length s)%nat
  | None =>
      match readFloat s with
      | Some (hex, m, k, rest) =>
          bool_decide (rest = "") && negb (overflows hex m k)
      | None => false
      end
  end.

End strconv.


(** ** Packages [helpers] and [errors] of the validator *)

Module helpers.

(** Modelled from the spec: constant [helpers.Path] of package [helpers],
    the location of a path-located parameter spec. *)
Definition Path : string := "path".

(** Modelled from the spec: constant [helpers.String] of package [helpers],
    the primitive type string of a declared type set. *)
Definition String : string := "string".

(** Modelled from the spec: constant [helpers.Number] of package [helpers],
    the primitive type number of a declared type set. *)
Definition Number : string := "number".

(** Modelled from the spec: constant [helpers.Integer] of package [helpers],
    the primitive type integer of a declared type set. *)
Definition Integer : string := "integer".

(** Modelled from the spec: constant [helpers.ParameterValidationPath] of
    package [helpers], the validation type of the path/"missing" error. *)
Definition ParameterValidationPath : string := "path".

End helpers.

(** Modelled from the spec: struct [errors.ValidationError] of package
    [errors], with the fields the resolver sets; the others keep their zero
    value. *)
Record ValidationError : Type := {
  ValidationType : string;
  ValidationSubType : string;
  Message : string;
  Reason : string;
  SpecLine : Z;
  SpecCol : Z;
  HowToFix : string
}.

(** ** The contract and the request, as the resolver reads them *)

(** [v3.Parameter] (the spec's ParameterSpec): its name, its location and
    the declared type set of its resolved schema ([Schema.Schema().Type]).
    [Schema_Type] is [None] for a parameter without a schema ([Schema] is
    nil, as for a parameter described by a content, or resolves to no
    schema): reading the types of such a parameter panics. *)
Record ParameterSpec : Type := {
  Name : string;
  In_ : string;
  Schema_Type : option (list string)
}.

(** [v3.Operation]: the parameters scoped to the operation. *)
Record Operation : Type := {
  Op_Parameters : list ParameterSpec
}.

(** [v3.PathItem]: the parameters shared by the operations of a template and
    one optional operation per method. *)
Record PathItem : Type := {
  Item_Parameters : list ParameterSpec;
  Get : option Operation;
  Post : option Operation;
  Put : option Operation;
  Delete : option Operation;
  Options : option Operation;
  Head : option Operation;
  Patch : option Operation;
  Trace : option Operation
}.

(** [v3.Document]: [document.Paths], a pointer that is nil for a contract
    without paths and that holds otherwise the Go map
    [document.Paths.PathItems] from the template string to its path item. *)
Record Document : Type := {
  Paths : option (gmap string PathItem)
}.

(** The map [document.Paths.PathItems] of a document with paths; it stands
    for no entry where [document.Paths] is nil. *)
Definition PathItems (document : Document) : gmap string PathItem :=
  default ∅ (Paths document).

(** The document whose paths are the entries of a map. *)
Definition contract (pathItems : gmap string PathItem) : Document :=
  {| Paths := Some pathItems |}.

(** [http.Request]: [request.Method] and [request.URL.Path]. *)
Record Request : Type := {
  Method : string;
  URL_Path : string
}.

Module http.
Definition MethodGet : string := "GET".
Definition MethodPost : string := "POST".
Definition MethodPut : string := "PUT".
Definition MethodDelete : string := "DELETE".
Definition MethodOptions : string := "OPTIONS".
Definition MethodHead : string := "HEAD".
Definition MethodPatch : string := "PATCH".
Definition MethodTrace : string := "TRACE".
End http.

(** A Go slice expression [s[lo:hi]] on a string: it panics unless
    [0 <= lo <= hi <= len(s)]. *)
Definition slice (s : string) (lo hi : Z) : outcome string :=
  if (0 <=? lo) && (lo <=? hi) && (hi <=? Z.of_nat (String.length s))
  then Returns (String.substring (Z.to_nat lo) (Z.to_nat (hi - lo)) s)
  else Panics.

(** The dereference of a Go pointer: it panics on nil. *)
Definition deref {A : Type} (pointer : option A) : outcome A :=
  match pointer with
  | Some x => Returns x
  | None => Panics
  end.

(** A Go index expression [l[i]]: it panics out of range. *)
Definition index {A : Type} (l : list A) (i : nat) : outcome A :=
  match l !! i with
  | Some x => Returns x
  | None => Panics
  end.

(** The segments of a path: [strings.Split(path, "/")] without a leading
    empty segment.  [Split] returns at least one piece, so the test of the
    first one is in range. *)
Definition segments (path : string) : list string :=
  match strings.Split1 path slash with
  | s0 :: rest => if decide (s0 = "") then rest else s0 :: rest
  | [] => []
  end.

(** The result of [FindPath]: the path item, the validation errors and the
    template that was found. *)
Record resolution : Type := Resolution {
  pItem : option PathItem;
  validationErrors : list ValidationError;
  foundPath : string
}.

(** The error [FindPath] appends when no path item was found. *)
Definition missingError (path : string) : ValidationError :=
  {| ValidationType := helpers.ParameterValidationPath;
     ValidationSubType := "missing";
     Message := "Path '" +:+ path +:+ "' not found";
     Reason := "The request contains a path of '" +:+ path +:+
               "' however that path does not exist in the specification";
     SpecLine := -1;
     SpecCol := -1;
     HowToFix := "" |}.

(** The value that replaces a segment value of the wrong type. *)
Definition FAIL : string := "&&FAIL&&".

Section Resolver.

(** [strconv.ParseFloat(s, 64)] returns no error. *)
Variable ParseFloat_ok : string → bool.

(** The [switch schema.Type[t]] of [comparePaths] on the value [s]. *)
Definition checkType (s t : string) : string :=
  if decide (t = helpers.String) then
    if ParseFloat_ok s then FAIL else s
  else if decide (t = helpers.Number ∨ t = helpers.Integer) then
    if ParseFloat_ok s then s else FAIL
  else s.

(** The loop [for t := range schema.Type]. *)
Definition checkTypes (types : list string) (s : string) : string :=
  fold_left checkType types s.

(** The loop [for p := range params] on the template segment [seg] and the
    value [s]. *)
Fixpoint checkParams (params : list ParameterSpec) (seg s : string)
  : outcome string :=
  match params with
  | [] => Returns s
  | p :: params' =>
      if decide (In_ p = helpers.Path) then
        h ← slice seg 1 (Z.of_nat (String.length seg) - 1);
        if decide (Name p = h) then
          types ← deref (Schema_Type p);
          checkParams params' seg (checkTypes types s)
        else checkParams params' seg s
      else checkParams params' seg s
  end.

(** The loop [for i, seg := range mapped], from index [i] on; [imploded]
    holds the values of the segments before [i]. *)
Fixpoint implode (i : nat) (mapped requested : list string)
    (params : list ParameterSpec) (imploded : list string)
  : outcome (list string) :=
  match mapped with
  | [] => Returns imploded
  | seg :: mapped' =>
      s ← (if strings.Contains seg "{" then index requested i
           else Returns seg);
      s ← checkParams params seg s;
      implode (S i) mapped' requested params (imploded ++ [s])
  end.

Definition comparePaths (mapped requested : list string)
    (params : list ParameterSpec) (path : string)
  : outcome (bool * list ValidationError) :=
  let pathErrors : list ValidationError := [] in
  if decide (length mapped ≠ length requested) then Returns (false, [])
  else
    imploded ← implode 0 mapped requested params [];
    let l := filepath.Join imploded in
    let r := filepath.Join requested in
    if decide (l = r) then Returns (true, pathErrors)
    else Returns (false, pathErrors).

(** One [case] of the [switch request.Method] for a template whose
    operation for that method is [operation].  [Some] is a
    [break pathFound] with the variables it leaves; [None] goes on to the
    next template.  [keep] tells whether the case assigns the errors of
    [comparePaths] to [validationErrors] (every case but POST does). *)
Definition methodCase (keep : bool) (request : Request)
    (reqPathSegments segs : list string) (path : string)
    (pathItem : PathItem) (params : list ParameterSpec)
    (operation : option Operation)
  : outcome (option resolution) :=
  match operation with
  | None => Returns None
  | Some op =>
      let p := params ++ Op_Parameters op in
      if decide (URL_Path request = path) then
        Returns (Some (Resolution (Some pathItem) [] path))
      else
        '(ok, errs) ← comparePaths segs reqPathSegments p (URL_Path request);
        if ok : bool then
          Returns (Some (Resolution (Some pathItem)
                                    (if keep then errs else []) path))
        else Returns None
  end.

(** The body of the loop over the path items, for the entry
    [(path, pathItem)]. *)
Definition visit (request : Request) (reqPathSegments : list string)
    (path : string) (pathItem : PathItem) : outcome (option resolution) :=
  let segs := segments path in
  let params := Item_Parameters pathItem in
  let case_ keep operation :=
    methodCase keep request reqPathSegments segs path pathItem params
               operation in
  if decide (Method request = http.MethodGet) then case_ true (Get pathItem)
  else if decide (Method request = http.MethodPost) then
    case_ false (Post pathItem)
  else if decide (Method request = http.MethodPut) then
    case_ true (Put pathItem)
  else if decide (Method request = http.MethodDelete) then
    case_ true (Delete pathItem)
  else if decide (Method request = http.MethodOptions) then
    case_ true (Options pathItem)
  else if decide (Method request = http.MethodHead) then
    case_ true (Head pathItem)
  else if decide (Method request = http.MethodPatch) then
    case_ true (Patch pathItem)
  else if decide (Method request = http.MethodTrace) then
    case_ true (Trace pathItem)
  else Returns None.

(** The loop [for path, pathItem := range document.Paths.PathItems], over
    the entries in the order the [range] visits them. *)
Fixpoint pathLoop (request : Request) (reqPathSegments : list string)
    (order : list (string * PathItem)) : outcome resolution :=
  match order with
  | [] => Returns (Resolution None [] "")
  | (path, pathItem) :: order' =>
      found ← visit request reqPathSegments path pathItem;
      match found with
      | Some r => Returns r
      | None => pathLoop request reqPathSegments order'
      end
  end.

(** [FindPath(request, document)], where [order] is the order in which the
    [range] visits the entries of [document.Paths.PathItems]; reading
    [document.Paths.PathItems] panics when [document.Paths] is nil. *)
Definition FindPath (request : Request) (document : Document)
    (order : list (string * PathItem)) : outcome resolution :=
  let reqPathSegments := segments (URL_Path request) in
  _ ← deref (Paths document);
  r ← pathLoop request reqPathSegments order;
  match pItem r with
  | None =>
      Returns (Resolution (pItem r)
                 (validationErrors r ++ [missingError (URL_Path request)])
                 (foundPath r))
  | Some _ => Returns r
  end.

End Resolver.

(** Go does not specify the order in which a [range] visits a map: it
    visits each entry once, in any order.  There is a map to visit when
    [document.Paths] is not nil. *)
Definition range_order (document : Document)
    (order : list (string * PathItem)) : Prop :=
  is_Some (Paths document) ∧ order ≡ₚ map_to_list (PathItems document).

(** The resolutions of a request against a document: one for each order
    the [range] may take, and the panic where there is no map to visit. *)
Definition resolves (ParseFloat_ok : string → bool) (request : Request)
    (document : Document) (result : outcome resolution) : Prop :=
  (Paths document = None ∧ result = Panics) ∨
  ∃ order, range_order document order ∧
           FindPath ParseFloat_ok request document order = result.

(** The operation a path item defines for a method: the field the
    [switch request.Method] of [FindPath] reads in the case of that
    method, and none for a method without a case. *)
Definition operationFor (method : string) (pathItem : PathItem)
  : option Operation :=
  if decide (method = http.MethodGet) then Get pathItem
  else if decide (method = http.MethodPost) then Post pathItem
  else if decide (method = http.MethodPut) then Put pathItem
  else if decide (method = http.MethodDelete) then Delete pathItem
  else if decide (method = http.MethodOptions) then Options pathItem
  else if decide (method = http.MethodHead) then Head pathItem
  else if decide (method = http.MethodPatch) then Patch pathItem
  else if decide (method = http.MethodTrace) then Trace pathItem
  else None.

(** The methods [FindPath] has a case for. *)
Definition methods : list string :=
  [http.MethodGet; http.MethodPost; http.MethodPut; http.MethodDelete;
   http.MethodOptions; http.MethodHead; http.MethodPatch; http.MethodTrace].

(** No template of [order] is found for the request: the loop body goes on
    to the next template at each of them. *)
Definition no_match (ParseFloat_ok : string → bool) (request : Request)
    (order : list (string * PathItem)) : Prop :=
  Forall (λ entry, visit ParseFloat_ok request (segments (URL_Path request))
                         entry.1 entry.2 = Returns None) order.

(** The loop body leaves the loop at this template. *)
Definition found_at (ParseFloat_ok : string → bool) (request : Request)
    (entry : string * PathItem) : Prop :=
  ∃ r, visit ParseFloat_ok request (segments (URL_Path request))
             entry.1 entry.2 = Returns (Some r).

(** [sub] occurs in [s]. *)
Definition occurs_in (sub s : string) : Prop :=
  ∃ before after, s = before +:+ sub +:+ after.

(** What a template segment is stripped to when it is searched for among
    the parameter names: the segment without its first and last byte. *)
Definition inner (seg : string) : string :=
  String.substring 1 (String.length seg - 2) seg.

(** A segment that [filepath.Join] copies as it is: not empty, not [.] or
    [..], and without a separator. *)
Definition plain (seg : string) : Prop :=
  seg ≠ "" ∧ seg ≠ "." ∧ seg ≠ ".." ∧ strings.Split1 seg slash = [seg].

(** A value conforms to a declared primitive type: a string is not a
    number, a number or an integer is one. *)
Definition conforms (ParseFloat_ok : string → bool) (t v : string) : bool :=
  if decide (t = helpers.String) then negb (ParseFloat_ok v)
  else if decide (t = helpers.Number ∨ t = helpers.Integer)
       then ParseFloat_ok v
  else true.

(** A path item with a GET operation only. *)
Definition getItem (shared scoped : list ParameterSpec) : PathItem :=
  {| Item_Parameters := shared;
     Get := Some {| Op_Parameters := scoped |};
     Post := None; Put := None; Delete := None; Options := None;
     Head := None; Patch := None; Trace := None |}.

(** A path-located parameter spec with one declared type. *)
Definition pathParam (name type : string) : ParameterSpec :=
  {| Name := name; In_ := helpers.Path; Schema_Type := Some [type] |}.

Definition GET (path : string) : Request :=
  {| Method := http.MethodGet; URL_Path := path |}.

(** ** Package [schema_validation]: [ValidateSchema] *)

(** [jsonschema.BasicError], an entry of the flat output of the validation
    engine: the fields [ValidateSchema] reads. *)
Record BasicError : Type := {
  KeywordLocation : string;
  Error : string
}.

(** What [jsch.Validate] returns when it is not nil: a
    [*jsonschema.ValidationError], here with the entries of its
    [BasicOutput().Errors], or an error of another dynamic type. *)
Inductive engineError : Type :=
  | validationError (schFlatErrs : list BasicError)
  | otherError.

(** Modelled from the spec: struct [errors.SchemaValidationFailure] of
    package [errors]: a reason, a location within the schema, the line and
    column resolved for it (zero when not located) and the error of the
    engine it comes from. *)
Record SchemaValidationFailure : Type := {
  Failure_Reason : string;
  Failure_Location : string;
  Failure_Line : Z;
  Failure_Column : Z;
  OriginalError : engineError
}.

(** Modelled from the spec: struct [errors.ValidationError] of package
    [errors] as [ValidateSchema] fills it: the fields of [ValidationError]
    above, the nested failures and the context. *)
Record SchemaError : Type := {
  Base : ValidationError;
  SchemaValidationErrors : list SchemaValidationFailure;
  Context : string
}.

Section SchemaValidation.

(** [yaml.Node]. *)
Variable Node : Type.

(** [LocateSchemaPropertyNodeByJSONPath(node, location)], a function of the
    package that is not among the sources: the line and column of the node
    it locates, if any. *)
Variable LocateSchemaPropertyNodeByJSONPath : Node → string → option (Z * Z).

(** The constants [helpers.Schema] and [errors.HowToFixInvalidSchema]. *)
Variable helpers_Schema : string.
Variable HowToFixInvalidSchema : string.

(** The body of the loop [for q := range schFlatErrs] on the entry [er]:
    [jk] is the error of the engine, [Content] is [renderedNode.Content]
    after the rendered schema is parsed again, and
    [schemaValidationErrors] holds the failures collected so far. *)
Definition flattenStep (jk : engineError) (Content : list Node)
    (schemaValidationErrors : list SchemaValidationFailure) (er : BasicError)
  : outcome (list SchemaValidationFailure) :=
  if bool_decide (KeywordLocation er = "") ||
     strings.HasPrefix (Error er) "doesn't validate with"
  then Returns schemaValidationErrors
  else if decide (Error er ≠ "") then
    root ← index Content 0;
    let located := LocateSchemaPropertyNodeByJSONPath root (KeywordLocation er) in
    let violation :=
      match located with
      | Some (line, column) =>
          {| Failure_Reason := Error er;
             Failure_Location := KeywordLocation er;
             Failure_Line := line;
             Failure_Column := column;
             OriginalError := jk |}
      | None =>
          {| Failure_Reason := Error er;
             Failure_Location := KeywordLocation er;
             Failure_Line := 0;
             Failure_Column := 0;
             OriginalError := jk |}
      end in
    Returns (schemaValidationErrors ++ [violation])
  else Returns schemaValidationErrors.

(** The loop [for q := range schFlatErrs]. *)
Fixpoint flatten (jk : engineError) (Content : list Node)
    (schFlatErrs : list BasicError)
    (schemaValidationErrors : list SchemaValidationFailure)
  : outcome (list SchemaValidationFailure) :=
  match schFlatErrs with
  | [] => Returns schemaValidationErrors
  | er :: schFlatErrs' =>
      schemaValidationErrors' ←
        flattenStep jk Content schemaValidationErrors er;
      flatten jk Content schFlatErrs' schemaValidationErrors'
  end.

(** [ValidateSchema(schema, payload)], from [jsch.Validate] on.  The schema
    and the payload enter through what the calls before make of them:
    [jsch] is the schema [compiler.Compile] returns, nil when the
    compilation fails and given otherwise by the result [scErrs] of
    [jsch.Validate(decodedObj)]; [renderedSchema] is the rendering of the
    schema, [Content] the content of its parsed document node, and
    [typeKeyNode] the line and column of [schema.GoLow().Type.KeyNode], a
    pointer that is nil for a schema without a type key. *)
Definition ValidateSchema (jsch : option (option engineError))
    (renderedSchema : string) (Content : list Node)
    (typeKeyNode : option (Z * Z))
  : outcome (bool * list SchemaError) :=
  scErrs ← deref jsch;
  validationErrors ←
    match scErrs with
    | None => Returns []
    | Some otherError => Panics
    | Some (validationError schFlatErrs as jk) =>
        schemaValidationErrors ← flatten jk Content schFlatErrs [];
        keyNode ← deref typeKeyNode;
        Returns
          ([] ++ [ {| Base :=
                        {| ValidationType := helpers_Schema;
                           ValidationSubType := "";
                           Message := "schema does not pass validation";
                           Reason := "Schema failed to validated against the contract requirements";
                           SpecLine := keyNode.1;
                           SpecCol := keyNode.2;
                           HowToFix := HowToFixInvalidSchema |};
                      SchemaValidationErrors := schemaValidationErrors;
                      Context := renderedSchema |} ])
    end;
  if decide (0 < length validationErrors)%nat
  then Returns (false, validationErrors)
  else Returns (true, []).

End SchemaValidation.

(** ** Notions the properties below are stated with *)

(** The entries of the flat output that [ValidateSchema] turns into
    failures: those with a keyword location and with a message, which is
    not the wrapper message of the engine. *)
Definition actionable (er : BasicError) : bool :=
  negb (bool_decide (KeywordLocation er = "")) &&
  negb (strings.HasPrefix (Error er) "doesn't validate with") &&
  negb (bool_decide (Error er = "")).

(** The failure made of an entry of the flat output, with the line and
    column of the node located for it, zero where none is. *)
Definition failure_of (jk : engineError) (located : option (Z * Z))
    (er : BasicError) : SchemaValidationFailure :=
  {| Failure_Reason := Error er;
     Failure_Location := KeywordLocation er;
     Failure_Line := (default (0, 0) located).1;
     Failure_Column := (default (0, 0) located).2;
     OriginalError := jk |}.

(** A template segment and a request segment agree: the template segment
    holds a brace, or both are the same text. *)
Definition agrees (seg v : string) : Prop :=
  strings.Contains seg "{" = true ∨ seg = v.

(** No byte of the piece is a separator. *)
Definition slash_free (piece : string) : Prop :=
  strings.Split1 piece slash = [piece].

(** No parameter of the list is path-located. *)
Definition no_path_param (params : list ParameterSpec) : Prop :=
  Forall (λ p, In_ p ≠ helpers.Path) params.

(** The loop over the parameters panics on this template segment: the
    segment has fewer than two bytes and a parameter is path-located (the
    slice of the segment is out of range), or a path-located parameter
    called as the segment without its first and last byte has no schema. *)
Definition panics_at (params : list ParameterSpec) (seg : string) : Prop :=
  ((String.length seg < 2)%nat ∧ ¬ no_path_param params) ∨
  (∃ p, p ∈ params ∧ In_ p = helpers.Path ∧ Name p = inner seg ∧
        Schema_Type p = None).

(** On this template [comparePaths] cannot panic for this request method:
    among the parameters of the path item and of its operation for the
    method none is path-located, or the path-located ones have a schema
    and the segments of the template have at least two bytes each. *)
Definition safe_entry (method : string) (entry : string * PathItem) : Prop :=
  ∀ op, operationFor method entry.2 = Some op →
    no_path_param (Item_Parameters entry.2 ++ Op_Parameters op) ∨
    (Forall (λ seg, (2 ≤ String.length seg)%nat) (segments entry.1) ∧
     Forall (λ p, In_ p = helpers.Path → is_Some (Schema_Type p))
            (Item_Parameters entry.2 ++ Op_Parameters op)).

(** * Properties of the Go library functions *)

Lemma Split1_nonempty (s : string) (sep : ascii) : strings.Split1 s sep ≠ [].
Proof.
  destruct s as [|c s]; simpl; [done|].
  destruct (decide (c = sep)); [done|].
  destruct (strings.Split1 s sep); done.
Qed.

(** A piece without separator is split into itself; its bytes are not the
    separator. *)
Lemma Split1_whole_cons (c : ascii) (s : string) (sep : ascii) :
  strings.Split1 (String c s) sep = [String c s] →
  c ≠ sep ∧ strings.Split1 s sep = [s].
Proof.
  simpl. destruct (decide (c = sep)) as [->|Hne].
  - intros Heq. exfalso. injection Heq as _ Hrest.
    by destruct (Split1_nonempty s sep).
  - destruct (strings.Split1 s sep) as [|piece pieces] eqn:Hsplit.
    + by destruct (Split1_nonempty s sep).
    + by intros [= -> ->].
Qed.

Lemma Split1_app_sep (a b : string) (sep : ascii) :
  strings.Split1 a sep = [a] →
  strings.Split1 (a +:+ String sep b) sep = a :: strings.Split1 b sep.
Proof.
  induction a as [|c a IH]; intros Hwhole.
  - simpl. by rewrite decide_True.
  - apply Split1_whole_cons in Hwhole as [Hne Hwhole].
    change (String c a +:+ String sep b) with (String c (a +:+ String sep b)).
    cbn [strings.Split1]. rewrite decide_False by done.
    by rewrite (IH Hwhole).
Qed.

(** Splitting undoes joining, for pieces without separator. *)
Lemma Split1_Join (pieces : list string) :
  pieces ≠ [] →
  Forall (λ piece, strings.Split1 piece slash = [piece]) pieces →
  strings.Split1 (strings.Join pieces "/") slash = pieces.
Proof.
  intros Hne Hpieces. induction Hpieces as [|piece pieces Hpiece _ IH]; [done|].
  destruct pieces as [|piece' pieces]; [done|].
  change (strings.Join (piece :: piece' :: pieces) "/")
    with (piece +:+ String slash (strings.Join (piece' :: pieces) "/")).
  rewrite (Split1_app_sep _ _ _ Hpiece). f_equal. by apply IH.
Qed.

Lemma Join_cons_nonempty (piece : string) (pieces : list string) :
  piece ≠ "" → ∃ c s, piece = String c s ∧
    ∃ s', strings.Join (piece :: pieces) "/" = String c s'.
Proof.
  intros Hne. destruct piece as [|c s]; [done|].
  exists c, s. split; [done|]. destruct pieces; by eexists.
Qed.

(** [Clean] pushes every plain component. *)
Lemma clean_plain (rooted : bool) (comps out : list string) :
  Forall plain comps →
  fold_left (filepath.clean_step rooted) comps out = rev comps ++ out.
Proof.
  intros Hplain. revert out.
  induction Hplain as [|c comps (H0 & H1 & H2 & _) _ IH]; intros out; [done|].
  simpl. unfold filepath.clean_step at 2.
  rewrite !decide_False by done. rewrite IH. by rewrite <- app_assoc.
Qed.

(** On plain elements [filepath.Join] is [strings.Join]. *)
Lemma filepath_Join_plain (elem : list string) :
  Forall plain elem → filepath.Join elem = strings.Join elem "/".
Proof.
  intros Hplain. destruct Hplain as [|e elem He Hplain]; [done|].
  pose proof He as (Hne & _ & _ & Hwhole).
  cbn [filepath.Join]. rewrite decide_False by done.
  destruct (Join_cons_nonempty e elem Hne) as (c & s & -> & s' & Hjoin).
  apply Split1_whole_cons in Hwhole as [Hc _].
  unfold filepath.Clean.
  rewrite decide_False by (rewrite Hjoin; done).
  assert (String.prefix "/" (strings.Join (String c s :: elem) "/") = false)
    as ->.
  { rewrite Hjoin. cbn [String.prefix].
    by destruct (ascii_dec "/" c) as [<-|]. }
  rewrite Split1_Join; [|done|].
  - rewrite clean_plain by by constructor.
    rewrite app_nil_r, rev_involutive.
    rewrite decide_False by (rewrite Hjoin; done). done.
  - apply Forall_cons. split; [by destruct He as (_&_&_&?)|].
    eapply Forall_impl; [exact Hplain|]. by intros ? (_&_&_&?).
Qed.

Lemma filepath_Join_plain_inj (elem1 elem2 : list string) :
  Forall plain elem1 → Forall plain elem2 →
  elem1 ≠ [] → elem2 ≠ [] →
  filepath.Join elem1 = filepath.Join elem2 → elem1 = elem2.
Proof.
  intros Hplain1 Hplain2 Hne1 Hne2.
  rewrite !filepath_Join_plain by done. intros Hjoin.
  rewrite <- (Split1_Join elem1), <- (Split1_Join elem2); [by rewrite Hjoin|..];
    try done.
  - eapply Forall_impl; [exact Hplain2|]. by intros ? (_&_&_&?).
  - eapply Forall_impl; [exact Hplain1|]. by intros ? (_&_&_&?).
Qed.

Lemma length_append (a b : string) :
  String.length (a +:+ b) = (String.length a + String.length b)%nat.
Proof. induction a; simpl; [done|]. by rewrite IHa. Qed.

Lemma substring_append (a b : string) :
  String.substring 0 (String.length a) (a +:+ b) = a.
Proof.
  induction a as [|c a IH]; simpl; [by destruct b|]. by rewrite IH.
Qed.

(** * Properties of [comparePaths] *)

Section ComparePathsProperties.

Variable pf : string → bool.


(** [comparePaths] never builds an error: [pathErrors] stays nil. *)
Lemma comparePaths_errors mapped requested params path ok errs :
  comparePaths pf mapped requested params path = Returns (ok, errs) → errs = [].
Proof.
  unfold comparePaths. case_decide; [congruence|].
  destruct (implode pf 0 mapped requested params []) as [imploded|]; simpl;
    [|done].
  case_decide; congruence.
Qed.

(** C6: when the template and the request differ in their number of
    segments, [comparePaths] returns no match and no errors at once,
    whatever the parameter specs are (it neither reads them nor checks a
    type, so that no parameter list can make it panic); so the two-segment
    request /a/b matches neither the template /a/b/c nor the template /a. *)
Theorem comparePaths_segment_count :
  (∀ mapped requested params path,
     length mapped ≠ length requested →
     comparePaths pf mapped requested params path = Returns (false, [])) ∧
  (∀ params path,
     comparePaths pf (segments "/a/b/c") (segments "/a/b") params path
       = Returns (false, [])) ∧
  (∀ params path,
     comparePaths pf (segments "/a") (segments "/a/b") params path
       = Returns (false, [])).
Proof.
  assert (∀ mapped requested params path,
            length mapped ≠ length requested →
            comparePaths pf mapped requested params path = Returns (false, []))
    as Hcount.
  { intros mapped requested params path Hlen. unfold comparePaths.
    by rewrite decide_True. }
  split; [exact Hcount|].
  split; intros params path; apply Hcount; vm_compute; lia.
Qed.

(** C10: [comparePaths] decides the match by the equality of
    [filepath.Join] of the reconstructed segments and [filepath.Join] of the
    requested ones, and [filepath.Join] drops [.] components and cancels a
    component against a following [..]; so the template /a/../c and the
    request /x/../c, whose first literal segments differ, are reported as a
    match. *)
Theorem comparePaths_join_cancels :
  (∀ mapped requested params path,
     comparePaths pf mapped requested params path =
       if decide (length mapped ≠ length requested) then Returns (false, [])
       else imploded ← implode pf 0 mapped requested params [];
            Returns (bool_decide (filepath.Join imploded
                                  = filepath.Join requested), [])) ∧
  filepath.Join ["a"; "."; "c"] = "a/c" ∧
  filepath.Join ["a"; ".."; "c"] = "c" ∧
  filepath.Join ["x"; ".."; "c"] = "c" ∧
  segments "/a/../c" = ["a"; ".."; "c"] ∧
  segments "/x/../c" = ["x"; ".."; "c"] ∧
  comparePaths pf (segments "/a/../c") (segments "/x/../c") [] "/x/../c"
    = Returns (true, []).
Proof.
  split; [|by vm_compute].
  intros mapped requested params path. unfold comparePaths.
  case_decide; [done|].
  destruct (implode pf 0 mapped requested params []) as [imploded|]; simpl;
    [|done].
  by case_decide; [rewrite bool_decide_true|rewrite bool_decide_false].
Qed.

(** ** The type check of one segment *)

Lemma slice_inner (seg : string) :
  (2 ≤ String.length seg)%nat →
  slice seg 1 (Z.of_nat (String.length seg) - 1) = Returns (inner seg).
Proof.
  intros Hlen. unfold slice, inner.
  replace (Z.to_nat (Z.of_nat (String.length seg) - 1 - 1))
    with (String.length seg - 2)%nat by lia.
  destruct (0 <=? 1) eqn:?, (1 <=? Z.of_nat (String.length seg) - 1) eqn:?,
    (Z.of_nat (String.length seg) - 1 <=? Z.of_nat (String.length seg)) eqn:?;
    simpl; first [done | lia].
Qed.

Lemma slice_short (seg : string) :
  (String.length seg < 2)%nat →
  slice seg 1 (Z.of_nat (String.length seg) - 1) = Panics.
Proof.
  intros Hlen. unfold slice.
  destruct (1 <=? Z.of_nat (String.length seg) - 1) eqn:?; [lia|].
  by rewrite andb_false_r.
Qed.

Lemma inner_placeholder (name : string) :
  inner ("{" +:+ name +:+ "}") = name ∧
  (2 ≤ String.length ("{" +:+ name +:+ "}"))%nat ∧
  strings.Contains ("{" +:+ name +:+ "}") "{" = true.
Proof.
  split; [|split].
  - unfold inner.
    change ("{" +:+ name +:+ "}") with (String "{" (name +:+ "}")).
    cbn [String.length]. rewrite length_append. cbn [String.length].
    replace (S (String.length name + 1) - 2)%nat with (String.length name)
      by lia.
    change (String.substring 0 (String.length name) (name +:+ "}") = name).
    apply substring_append.
  - change ("{" +:+ name +:+ "}") with (String "{" (name +:+ "}")).
    cbn [String.length]. rewrite length_append. cbn [String.length]. lia.
  - change ("{" +:+ name +:+ "}") with (String "{" (name +:+ "}")).
    cbn [strings.Contains String.prefix].
    destruct (ascii_dec "{" "{"); [|done].
    by destruct (name +:+ "}").
Qed.

Lemma checkType_conforms (t v : string) :
  conforms pf t v = true → checkType pf v t = v.
Proof.
  unfold conforms, checkType. repeat case_decide; by destruct (pf v).
Qed.

Lemma checkType_fails (t v : string) :
  conforms pf t v = false → checkType pf v t = FAIL.
Proof.
  unfold conforms, checkType. repeat case_decide; by destruct (pf v).
Qed.

Lemma checkType_FAIL (t : string) : checkType pf FAIL t = FAIL.
Proof. unfold checkType. repeat case_decide; by destruct (pf FAIL). Qed.

(** The loop over the parameters panics on a segment of fewer than two
    bytes as soon as one parameter is path-located. *)
Lemma checkParams_panics (params : list ParameterSpec) (seg s : string) :
  (String.length seg < 2)%nat →
  (∃ p, p ∈ params ∧ In_ p = helpers.Path) →
  checkParams pf params seg s = Panics.
Proof.
  intros Hlen. revert s.
  induction params as [|p params IH]; intros s (p' & Hp' & Hin).
  { by apply elem_of_nil in Hp'. }
  simpl. case_decide as Hpath; [by rewrite slice_short|].
  apply IH. exists p'. split; [|done].
  apply elem_of_cons in Hp' as [->|Hp']; done.
Qed.

(** A segment whose inner text names no path-located parameter keeps its
    value. *)
Lemma checkParams_unnamed (params : list ParameterSpec) (seg s : string) :
  (2 ≤ String.length seg)%nat →
  (∀ p, p ∈ params → In_ p = helpers.Path → Name p ≠ inner seg) →
  checkParams pf params seg s = Returns s.
Proof.
  intros Hlen. induction params as [|p params IH]; intros Hnames; [done|].
  simpl. rewrite slice_inner by done. simpl.
  case_decide as Hin.
  - rewrite decide_False by (apply Hnames; [set_solver|done]).
    apply IH. intros; apply Hnames; [set_solver|done].
  - apply IH. intros; apply Hnames; [set_solver|done].
Qed.

(** A value that conforms to the one type [t] of the parameters the segment
    names is kept; one that does not is replaced by the sentinel. *)
Lemma checkParams_typed (params : list ParameterSpec) (seg t v : string) :
  (2 ≤ String.length seg)%nat →
  (∀ p, p ∈ params → In_ p = helpers.Path → Name p = inner seg →
        Schema_Type p = Some [t]) →
  (conforms pf t v = true → checkParams pf params seg v = Returns v) ∧
  (checkParams pf params seg FAIL = Returns FAIL) ∧
  (conforms pf t v = false →
   (∃ p, p ∈ params ∧ In_ p = helpers.Path ∧ Name p = inner seg) →
   checkParams pf params seg v = Returns FAIL).
Proof.
  intros Hlen. induction params as [|p params IH]; intros Htypes.
  { repeat split; try done. by intros _ (p & Hp & _); set_solver. }
  destruct IH as (IHok & IHfail & IHbad).
  { intros; apply Htypes; [set_solver|done..]. }
  simpl. rewrite slice_inner by done. simpl.
  case_decide as Hin; [case_decide as Hname|].
  - rewrite (Htypes p) by (done || set_solver). simpl.
    rewrite checkType_FAIL. split; [|split; [done|]].
    + intros Hok. rewrite checkType_conforms by done. by apply IHok.
    + intros Hbad _. by rewrite checkType_fails.
  - split; [done|split; [done|]].
    intros Hbad (p' & Hp' & Hin' & Hname'). apply IHbad; [done|].
    apply elem_of_cons in Hp' as [->|Hp']; [done|]. by exists p'.
  - split; [done|split; [done|]].
    intros Hbad (p' & Hp' & Hin' & Hname'). apply IHbad; [done|].
    apply elem_of_cons in Hp' as [->|Hp']; [done|]. by exists p'.
Qed.

(** ** Where [comparePaths] panics and where it returns *)

Lemma checkParams_Panics_path (params : list ParameterSpec) (seg s : string) :
  checkParams pf params seg s = Panics → ¬ no_path_param params.
Proof.
  revert s. induction params as [|p params IH]; intros s; simpl; [done|].
  intros Hpanic Hnone. apply Forall_cons in Hnone as [Hp Hnone].
  rewrite decide_False in Hpanic by done. by apply (IH s).
Qed.

(** On a segment of at least two bytes the loop over the parameters panics
    exactly at a path-located parameter without a schema that the segment
    names. *)
Lemma checkParams_Panics_schema (params : list ParameterSpec) (seg s : string) :
  (2 ≤ String.length seg)%nat →
  checkParams pf params seg s = Panics ↔
  ∃ p, p ∈ params ∧ In_ p = helpers.Path ∧ Name p = inner seg ∧
       Schema_Type p = None.
Proof.
  intros Hlen. revert s.
  induction params as [|p params IH]; intros s; simpl.
  { split; [done|]. intros (p & Hp & _). by apply elem_of_nil in Hp. }
  rewrite slice_inner by done. simpl.
  assert ((∃ q, q ∈ params ∧ In_ q = helpers.Path ∧ Name q = inner seg ∧
                Schema_Type q = None) →
          ∃ q, q ∈ p :: params ∧ In_ q = helpers.Path ∧ Name q = inner seg ∧
               Schema_Type q = None) as Htail.
  { intros (q & Hq & Hrest). exists q. split; [by apply elem_of_cons; right|].
    done. }
  case_decide as Hin; [case_decide as Hname|].
  - destruct (Schema_Type p) as [types|] eqn:Hschema; simpl.
    + rewrite IH. split; [done|].
      intros (q & Hq & Hqin & Hqname & Hqschema).
      apply elem_of_cons in Hq as [->|Hq]; [congruence|]. by exists q.
    + split; [|done]. intros _. exists p.
      split; [by apply elem_of_cons; left|done].
  - rewrite IH. split; [done|].
    intros (q & Hq & Hqin & Hqname & Hqschema).
    apply elem_of_cons in Hq as [->|Hq]; [done|]. by exists q.
  - rewrite IH. split; [done|].
    intros (q & Hq & Hqin & Hqname & Hqschema).
    apply elem_of_cons in Hq as [->|Hq]; [done|]. by exists q.
Qed.

Lemma checkParams_Panics (params : list ParameterSpec) (seg s : string) :
  checkParams pf params seg s = Panics ↔ panics_at params seg.
Proof.
  unfold panics_at.
  destruct (decide (String.length seg < 2)%nat) as [Hshort|Hlong].
  - split.
    + intros Hpanic. left. split; [done|].
      by apply (checkParams_Panics_path params seg s).
    + intros Hpanics. apply checkParams_panics; [done|].
      assert (¬ no_path_param params) as Hparams.
      { destruct Hpanics as [[_ ?]|(p & Hp & Hin & _)]; [done|].
        intros Hnone. unfold no_path_param in Hnone.
        rewrite Forall_forall in Hnone. by apply (Hnone p). }
      apply not_Forall_Exists in Hparams; [|apply _].
      apply Exists_exists in Hparams as (p & Hp & Hin). exists p.
      split; [done|]. simpl in Hin.
      by destruct (decide (In_ p = helpers.Path)).
  - rewrite checkParams_Panics_schema by lia. split; [by right|].
    intros [[? _]|?]; [lia|done].
Qed.

Lemma implode_Panics (i : nat) (mapped requested : list string)
    (params : list ParameterSpec) (imploded : list string) :
  (i + length mapped ≤ length requested)%nat →
  implode pf i mapped requested params imploded = Panics ↔
  Exists (panics_at params) mapped.
Proof.
  revert i imploded.
  induction mapped as [|seg mapped IH]; intros i imploded Hlen; simpl in *.
  { split; [done|]. by intros ?%Exists_nil. }
  destruct (lookup_lt_is_Some_2 requested i) as [v Hv]; [lia|].
  assert (∃ s, (if strings.Contains seg "{" then index requested i
                else Returns seg) = Returns s) as [s ->].
  { unfold index. rewrite Hv. destruct (strings.Contains seg "{"); by eexists. }
  simpl. rewrite Exists_cons.
  destruct (checkParams pf params seg s) as [s'|] eqn:Hcheck; simpl.
  - rewrite IH by lia. split; [by right|].
    intros [Hseg|?]; [|done].
    apply (checkParams_Panics params seg s) in Hseg. congruence.
  - split; [|done]. intros _. left.
    by apply (checkParams_Panics params seg s).
Qed.

(** [comparePaths] panics exactly when the template and the request have
    the same number of segments and the loop over the parameters panics on
    a segment of the template. *)
Lemma comparePaths_Panics (mapped requested : list string)
    (params : list ParameterSpec) (path : string) :
  comparePaths pf mapped requested params path = Panics ↔
  length mapped = length requested ∧ Exists (panics_at params) mapped.
Proof.
  unfold comparePaths. case_decide as Hlen.
  { split; [done|]. by intros [? _]. }
  assert (length mapped = length requested) as Hlen'
    by (destruct (decide (length mapped = length requested)); done).
  rewrite <- (implode_Panics 0 mapped requested params []) by lia.
  destruct (implode pf 0 mapped requested params []) as [imploded|]; simpl.
  - split; [by case_decide|]. by intros [_ ?].
  - done.
Qed.

(** Where it does not panic, [comparePaths] returns without an error. *)
Lemma comparePaths_returns (mapped requested : list string)
    (params : list ParameterSpec) (path : string) :
  ¬ (length mapped = length requested ∧ Exists (panics_at params) mapped) →
  ∃ ok, comparePaths pf mapped requested params path = Returns (ok, []).
Proof.
  intros Hsafe.
  destruct (comparePaths pf mapped requested params path)
    as [[ok errs]|] eqn:Hcmp.
  - apply comparePaths_errors in Hcmp as ->. by exists ok.
  - by apply comparePaths_Panics in Hcmp.
Qed.

(** ** The loop over the segments *)

Lemma implode_app (i : nat) (mapped1 mapped2 requested : list string)
    (params : list ParameterSpec) (imploded : list string) :
  implode pf i (mapped1 ++ mapped2) requested params imploded =
    (imploded' ← implode pf i mapped1 requested params imploded;
     implode pf (i + length mapped1) mapped2 requested params imploded').
Proof.
  revert i imploded.
  induction mapped1 as [|seg mapped1 IH]; intros i imploded; simpl.
  - by rewrite Nat.add_0_r.
  - destruct (if strings.Contains seg "{" then index requested i
              else Returns seg) as [s|]; simpl; [|done].
    destruct (checkParams pf params seg s) as [s'|]; simpl; [|done].
    rewrite IH. by replace (S i + length mapped1)%nat
      with (i + S (length mapped1))%nat by lia.
Qed.

(** Segments that the request repeats, of at least two bytes and whose
    inner text names no path-located parameter, are copied. *)
Lemma implode_literal (i : nat) (mapped requested : list string)
    (params : list ParameterSpec) (imploded : list string) :
  (∀ j seg, mapped !! j = Some seg → requested !! (i + j)%nat = Some seg) →
  Forall (λ seg, (2 ≤ String.length seg)%nat) mapped →
  Forall (λ seg, ∀ p, p ∈ params → In_ p = helpers.Path →
                      Name p ≠ inner seg) mapped →
  implode pf i mapped requested params imploded
    = Returns (imploded ++ mapped).
Proof.
  revert i imploded.
  induction mapped as [|seg mapped IH]; intros i imploded Hreq Hlen Hnames.
  { simpl. by rewrite app_nil_r. }
  apply Forall_cons in Hlen as [Hlen Hlens].
  apply Forall_cons in Hnames as [Hname Hnames].
  simpl.
  assert ((if strings.Contains seg "{" then index requested i
           else Returns seg) = Returns seg) as ->.
  { destruct (strings.Contains seg "{"); [|done]. unfold index.
    specialize (Hreq 0%nat seg eq_refl). rewrite Nat.add_0_r in Hreq.
    by rewrite Hreq. }
  simpl. rewrite checkParams_unnamed by done. simpl.
  rewrite IH; [by rewrite <- app_assoc| |done..].
  intros j seg' Hj. specialize (Hreq (S j) seg' Hj).
  by replace (S i + j)%nat with (i + S j)%nat by lia.
Qed.

(** The values [comparePaths] reconstructs for a template with literal
    segments around one placeholder, on a request that repeats the literal
    segments. *)
Lemma implode_placeholder (before after : list string) (seg v v' : string)
    (params : list ParameterSpec) :
  Forall (λ seg, (2 ≤ String.length seg)%nat) (before ++ after) →
  Forall (λ seg, ∀ p, p ∈ params → In_ p = helpers.Path →
                      Name p ≠ inner seg) (before ++ after) →
  strings.Contains seg "{" = true →
  checkParams pf params seg v = Returns v' →
  implode pf 0 (before ++ [seg] ++ after) (before ++ [v] ++ after) params []
    = Returns (before ++ [v'] ++ after).
Proof.
  intros Hlen Hnames Hbrace Hcheck.
  apply Forall_app in Hlen as [Hlen1 Hlen2].
  apply Forall_app in Hnames as [Hnames1 Hnames2].
  rewrite implode_app, implode_literal;
    [|by intros; apply lookup_app_l_Some|done..].
  simpl. rewrite Hbrace.
  unfold index. rewrite list_lookup_middle by done. simpl.
  rewrite Hcheck. simpl.
  rewrite implode_literal; [by rewrite <- app_assoc| |done..].
  intros j seg' Hj.
  rewrite (lookup_app_r before) by lia.
  replace (S (length before) + j - length before)%nat with (S j) by lia.
  done.
Qed.

(** A template with one placeholder [{name}] among segments that the
    request repeats, every path-located parameter with that name declaring
    the one type [t], where every other segment has at least two bytes and,
    without its first and last byte, names no path-located parameter.  A
    request whose value at the placeholder conforms to [t] matches the
    template.  A request whose value does not conform, when a path-located
    parameter has that name, does not match, provided the value is not the
    sentinel text and [filepath.Join] copies the request segments as they
    are. *)
Theorem comparePaths_placeholder (before after : list string)
    (name t v path : string) (params : list ParameterSpec) :
  Forall (λ seg, (2 ≤ String.length seg)%nat) (before ++ after) →
  Forall (λ seg, ∀ p, p ∈ params → In_ p = helpers.Path →
                      Name p ≠ inner seg) (before ++ after) →
  (∀ p, p ∈ params → In_ p = helpers.Path → Name p = name →
        Schema_Type p = Some [t]) →
  (conforms pf t v = true →
   comparePaths pf (before ++ ["{" +:+ name +:+ "}"] ++ after)
                (before ++ [v] ++ after) params path
     = Returns (true, [])) ∧
  (conforms pf t v = false →
   (∃ p, p ∈ params ∧ In_ p = helpers.Path ∧ Name p = name) →
   v ≠ FAIL →
   Forall plain (before ++ [v] ++ after) →
   comparePaths pf (before ++ ["{" +:+ name +:+ "}"] ++ after)
                (before ++ [v] ++ after) params path
     = Returns (false, [])).
Proof.
  intros Hlen Hnames Htypes.
  destruct (inner_placeholder name) as (Hinner & Hlen' & Hbrace).
  destruct (checkParams_typed params ("{" +:+ name +:+ "}") t v Hlen')
    as (Hok & _ & Hbad).
  { rewrite Hinner. exact Htypes. }
  rewrite Hinner in Hbad.
  split.
  - intros Hconf. unfold comparePaths.
    rewrite decide_False by (rewrite !length_app; simpl; lia).
    rewrite (implode_placeholder _ _ _ _ v) by auto. simpl.
    by rewrite decide_True.
  - intros Hconf Hparam Hsentinel Hplain. unfold comparePaths.
    rewrite decide_False by (rewrite !length_app; simpl; lia).
    rewrite (implode_placeholder _ _ _ _ FAIL) by auto. simpl.
    rewrite decide_False; [done|]. intros Hjoin.
    apply filepath_Join_plain_inj in Hjoin; [| |done|by destruct before..].
    + apply app_inv_head in Hjoin. by injection Hjoin as <-.
    + apply Forall_app in Hplain as [Hbefore Hrest].
      apply Forall_app. split; [done|].
      apply Forall_cons in Hrest as [_ Hafter].
      apply Forall_cons. split; [by vm_compute|done].
Qed.

End ComparePathsProperties.

(** * Properties of [FindPath] *)

Section FindPathProperties.

Variable pf : string → bool.


Lemma methodCase_found keep request reqPathSegments segs path pathItem
    params operation r :
  methodCase pf keep request reqPathSegments segs path pathItem params operation
    = Returns (Some r) →
  r = Resolution (Some pathItem) [] path ∧ is_Some operation.
Proof.
  unfold methodCase. destruct operation as [op|]; [|done].
  case_decide.
  - intros [= <-]. eauto.
  - destruct (comparePaths pf _ _ _ _) as [[ok errs]|] eqn:Hcmp; simpl; [|done].
    apply comparePaths_errors in Hcmp as ->.
    destruct ok; [|done]. intros [= <-]. by destruct keep; eauto.
Qed.

Lemma methodCase_literal keep request reqPathSegments segs pathItem params op :
  methodCase pf keep request reqPathSegments segs (URL_Path request) pathItem
             params (Some op)
    = Returns (Some (Resolution (Some pathItem) [] (URL_Path request))).
Proof. unfold methodCase. by rewrite decide_True. Qed.

(** Each case of the [switch] reads the operation of its method. *)
Lemma visit_methodCase request reqPathSegments path pathItem :
  ∃ keep,
    visit pf request reqPathSegments path pathItem
    = methodCase pf keep request reqPathSegments (segments path) path pathItem
                 (Item_Parameters pathItem)
                 (operationFor (Method request) pathItem).
Proof.
  unfold visit, operationFor.
  repeat case_decide; first [by exists true | by exists false].
Qed.

Lemma visit_found request reqPathSegments path pathItem r :
  visit pf request reqPathSegments path pathItem = Returns (Some r) →
  r = Resolution (Some pathItem) [] path ∧
  is_Some (operationFor (Method request) pathItem).
Proof.
  destruct (visit_methodCase request reqPathSegments path pathItem)
    as [keep ->].
  apply methodCase_found.
Qed.

Lemma visit_no_operation request reqPathSegments path pathItem :
  operationFor (Method request) pathItem = None →
  visit pf request reqPathSegments path pathItem = Returns None.
Proof.
  destruct (visit_methodCase request reqPathSegments path pathItem)
    as [keep ->].
  by intros ->.
Qed.

Lemma visit_literal request reqPathSegments pathItem :
  is_Some (operationFor (Method request) pathItem) →
  visit pf request reqPathSegments (URL_Path request) pathItem
    = Returns (Some (Resolution (Some pathItem) [] (URL_Path request))).
Proof.
  destruct (visit_methodCase request reqPathSegments (URL_Path request)
                             pathItem) as [keep ->].
  intros [op ->]. apply methodCase_literal.
Qed.

Lemma pathLoop_no_match request order :
  no_match pf request order →
  pathLoop pf request (segments (URL_Path request)) order
    = Returns (Resolution None [] "").
Proof.
  induction 1 as [|[path pathItem] order Hvisit _ IH]; simpl in *; [done|].
  by rewrite Hvisit.
Qed.

Lemma pathLoop_found request before entry after r :
  no_match pf request before →
  visit pf request (segments (URL_Path request)) entry.1 entry.2
    = Returns (Some r) →
  pathLoop pf request (segments (URL_Path request)) (before ++ entry :: after)
    = Returns r.
Proof.
  intros Hbefore Hvisit.
  induction Hbefore as [|[path pathItem] before Hnone _ IH]; simpl in *.
  - destruct entry as [path pathItem]. simpl in *. by rewrite Hvisit.
  - by rewrite Hnone.
Qed.

(** The loop ends in one of two ways: at the end of the map, or at the first
    template at which the body breaks. *)
Lemma pathLoop_inv request order r :
  pathLoop pf request (segments (URL_Path request)) order = Returns r →
  (no_match pf request order ∧ r = Resolution None [] "") ∨
  (∃ before entry after,
     order = before ++ entry :: after ∧ no_match pf request before ∧
     visit pf request (segments (URL_Path request)) entry.1 entry.2
       = Returns (Some r)).
Proof.
  revert r. induction order as [|[path pathItem] order IH]; intros r; simpl.
  - intros [= <-]. left. split; [constructor|done].
  - destruct (visit pf _ _ path pathItem) as [[r'|]|] eqn:Hvisit; simpl; [| |done].
    + intros [= <-]. right. exists [], (path, pathItem), order.
      split; [done|]. split; [constructor|done].
    + intros Hloop. destruct (IH r Hloop) as [[Hnone ->]|Hfound].
      * left. split; [|done]. by constructor.
      * right. destruct Hfound as (before & entry & after & -> & Hnone & Hv).
        exists ((path, pathItem) :: before), entry, after.
        split; [done|]. split; [|done]. by constructor.
Qed.

Lemma FindPath_no_paths request document order :
  Paths document = None → FindPath pf request document order = Panics.
Proof. intros Hpaths. unfold FindPath. by rewrite Hpaths. Qed.

Lemma FindPath_returns_paths request document order r :
  FindPath pf request document order = Returns r → is_Some (Paths document).
Proof. unfold FindPath. by destruct (Paths document). Qed.

Lemma FindPath_no_match request document order :
  is_Some (Paths document) →
  no_match pf request order →
  FindPath pf request document order
    = Returns (Resolution None [missingError (URL_Path request)] "").
Proof.
  intros [paths Hpaths] Hnone. unfold FindPath. rewrite Hpaths. simpl.
  by rewrite (pathLoop_no_match _ _ Hnone).
Qed.

Lemma FindPath_found request document before entry after r :
  is_Some (Paths document) →
  no_match pf request before →
  visit pf request (segments (URL_Path request)) entry.1 entry.2
    = Returns (Some r) →
  FindPath pf request document (before ++ entry :: after) = Returns r.
Proof.
  intros [paths Hpaths] Hbefore Hvisit. unfold FindPath. rewrite Hpaths.
  simpl. rewrite (pathLoop_found _ _ _ _ _ Hbefore Hvisit). simpl.
  by destruct (visit_found _ _ _ _ _ Hvisit) as [-> _].
Qed.

Lemma FindPath_inv request document order r :
  FindPath pf request document order = Returns r →
  (no_match pf request order ∧
   r = Resolution None [missingError (URL_Path request)] "") ∨
  (∃ before entry after,
     order = before ++ entry :: after ∧ no_match pf request before ∧
     r = Resolution (Some entry.2) [] entry.1 ∧
     visit pf request (segments (URL_Path request)) entry.1 entry.2
       = Returns (Some r)).
Proof.
  unfold FindPath. destruct (Paths document) as [paths|]; simpl; [|done].
  destruct (pathLoop pf _ _ order) as [r'|] eqn:Hloop; simpl; [|done].
  destruct (pathLoop_inv _ _ _ Hloop) as [[Hnone ->]|Hfound]; simpl.
  - intros [= <-]. by left.
  - destruct Hfound as (before & entry & after & -> & Hnone & Hvisit).
    destruct (visit_found _ _ _ _ _ Hvisit) as [Hr _].
    rewrite Hr in *. simpl. intros [= <-]. right.
    by exists before, entry, after.
Qed.

Lemma no_match_not_found request order entry :
  no_match pf request order → entry ∈ order → ¬ found_at pf request entry.
Proof.
  intros Hnone Hin [r Hvisit].
  unfold no_match in Hnone. rewrite Forall_forall in Hnone.
  specialize (Hnone entry Hin). simpl in Hnone. congruence.
Qed.

Lemma range_order_lookup document order path pathItem :
  range_order document order →
  (path, pathItem) ∈ order ↔ PathItems document !! path = Some pathItem.
Proof.
  unfold range_order. intros [_ ->]. apply elem_of_map_to_list.
Qed.

Lemma missingError_shape path :
  ValidationType (missingError path) = "path" ∧
  ValidationSubType (missingError path) = "missing" ∧
  occurs_in path (Message (missingError path)) ∧
  occurs_in path (Reason (missingError path)) ∧
  SpecLine (missingError path) = -1 ∧
  SpecCol (missingError path) = -1.
Proof.
  repeat split.
  - by exists "Path '", "' not found".
  - by exists "The request contains a path of '",
           "' however that path does not exist in the specification".
Qed.

(** Where the loop passes every template of a contract with paths (it has
    no operation for the method, or it differs from the request path and
    [comparePaths] reports no match), [FindPath] returns a nil path item,
    an empty template string and exactly one error, of type path and
    subtype missing, whose message and reason contain the request path and
    whose line and column are -1. *)
Lemma FindPath_missing request document order :
  is_Some (Paths document) →
  no_match pf request order →
  ∃ e,
    FindPath pf request document order = Returns (Resolution None [e] "") ∧
    ValidationType e = "path" ∧
    ValidationSubType e = "missing" ∧
    Message e = "Path '" +:+ URL_Path request +:+ "' not found" ∧
    occurs_in (URL_Path request) (Message e) ∧
    occurs_in (URL_Path request) (Reason e) ∧
    SpecLine e = -1 ∧
    SpecCol e = -1.
Proof.
  intros Hpaths Hnone. exists (missingError (URL_Path request)).
  split; [by apply FindPath_no_match|].
  destruct (missingError_shape (URL_Path request)) as (?&?&?&?&?&?).
  by repeat split.
Qed.

(** What [FindPath] returns with a path item: an entry of the map, whose
    path item has an operation for the request method. *)
Lemma FindPath_returns_entry request document order r pathItem :
  FindPath pf request document order = Returns r → pItem r = Some pathItem →
  (foundPath r, pathItem) ∈ order ∧
  is_Some (operationFor (Method request) pathItem).
Proof.
  intros Hfind Hitem.
  destruct (FindPath_inv _ _ _ _ Hfind) as [[_ ->]|Hfound]; [done|].
  destruct Hfound as (before & [path item] & after & -> & _ & -> & Hvisit).
  simpl in *. injection Hitem as ->.
  split; [set_solver|]. by destruct (visit_found _ _ _ _ _ Hvisit).
Qed.

(** C7: the path item [FindPath] returns is an entry of the map, under the
    template it returns, and defines an operation for the request method; a
    template without an operation for that method is passed, whatever its
    string is (the request path included); and for a method other than GET,
    POST, PUT, DELETE, OPTIONS, HEAD, PATCH and TRACE the loop passes every
    template, so that against a contract with paths [FindPath] returns the
    missing-path error. *)
Theorem FindPath_operation_for_method request document order :
  (∀ r pathItem,
     FindPath pf request document order = Returns r →
     pItem r = Some pathItem →
     (foundPath r, pathItem) ∈ order ∧
     is_Some (operationFor (Method request) pathItem)) ∧
  (∀ reqPathSegments path pathItem,
     operationFor (Method request) pathItem = None →
     visit pf request reqPathSegments path pathItem = Returns None) ∧
  (Method request ∉ methods →
   no_match pf request order ∧
   (is_Some (Paths document) →
    FindPath pf request document order
      = Returns (Resolution None [missingError (URL_Path request)] ""))).
Proof.
  split; [|split].
  - apply FindPath_returns_entry.
  - intros. by apply visit_no_operation.
  - intros Hmethod.
    assert (no_match pf request order) as Hnone.
    { apply Forall_forall. intros [path pathItem] _. simpl.
      apply visit_no_operation. unfold operationFor, methods in *.
      repeat case_decide; try done; set_solver. }
    split; [done|]. intros Hpaths. by apply FindPath_no_match.
Qed.

(** C9, as amended: when [FindPath] returns a path item, the template it
    returns is a key of the contract's path map, and the path item is the
    entry under that key; the template is then not empty unless the empty
    string is itself a key of the map. *)
Theorem FindPath_found_key request document order r pathItem :
  range_order document order →
  FindPath pf request document order = Returns r →
  pItem r = Some pathItem →
  PathItems document !! foundPath r = Some pathItem ∧
  (PathItems document !! "" = None → foundPath r ≠ "").
Proof.
  intros Horder Hfind Hitem.
  destruct (FindPath_returns_entry _ _ _ _ _ Hfind Hitem) as [Helem _].
  apply (range_order_lookup _ _ _ _ Horder) in Helem.
  split; [done|]. intros Hempty Hpath. rewrite Hpath in Helem. congruence.
Qed.

(** C5, as amended: a request path equal to a template of the contract
    that has an operation for the request method is resolved with no error
    whenever [FindPath] returns; it is resolved to that template, with its
    path item and the request path as the template string, when the loop
    does not leave at a template it visits before it (none of them is
    found).  The template's own segments and parameters are not compared:
    it is found also where [comparePaths] would panic on them. *)
Theorem FindPath_literal request document before after pathItem :
  range_order document (before ++ (URL_Path request, pathItem) :: after) →
  is_Some (operationFor (Method request) pathItem) →
  PathItems document !! URL_Path request = Some pathItem ∧
  (∀ r, FindPath pf request document
                 (before ++ (URL_Path request, pathItem) :: after)
          = Returns r →
        is_Some (pItem r) ∧ validationErrors r = []) ∧
  (no_match pf request before →
   FindPath pf request document
            (before ++ (URL_Path request, pathItem) :: after)
     = Returns (Resolution (Some pathItem) [] (URL_Path request))) ∧
  comparePaths pf (segments "/a") (segments "/a")
               [pathParam "id" helpers.Integer] "/a" = Panics ∧
  FindPath pf (GET "/a")
           (contract {[ "/a" := getItem [pathParam "id" helpers.Integer] [] ]})
           [("/a", getItem [pathParam "id" helpers.Integer] [])]
    = Returns (Resolution (Some (getItem [pathParam "id" helpers.Integer] []))
                          [] "/a").
Proof.
  intros Horder Hop.
  split; [|split; [|split; [|by split]]].
  - apply (range_order_lookup _ _ _ _ Horder). set_solver.
  - intros r Hfind.
    destruct (FindPath_inv _ _ _ _ Hfind) as [[Hnone _]|Hfound].
    + destruct (no_match_not_found _ _ (URL_Path request, pathItem) Hnone);
        [set_solver|].
      eexists. by apply visit_literal.
    + by destruct Hfound as (before' & entry & after' & _ & _ & -> & _); eauto.
  - intros Hnone. apply FindPath_found; [by destruct Horder|done|].
    by apply visit_literal.
Qed.

(** C8, as amended: [FindPath] is a function of the request and of the
    order in which the [range] visits the map, which Go leaves open; two
    runs on the same contract that both return agree on the errors and on
    whether a path item was found, and on the whole result when they visit
    the map in the same order or when at most one template of the contract
    is found for the request. *)
Theorem FindPath_order request document order1 order2 r1 r2 :
  range_order document order1 →
  range_order document order2 →
  FindPath pf request document order1 = Returns r1 →
  FindPath pf request document order2 = Returns r2 →
  validationErrors r1 = validationErrors r2 ∧
  (pItem r1 = None ↔ pItem r2 = None) ∧
  (order1 = order2 → r1 = r2) ∧
  ((∀ entry1 entry2,
      entry1 ∈ order1 → entry2 ∈ order1 →
      found_at pf request entry1 → found_at pf request entry2 →
      entry1 = entry2) →
   r1 = r2).
Proof.
  intros [_ Horder1] [_ Horder2] Hfind1 Hfind2.
  assert (order1 ≡ₚ order2) as Hperm by by rewrite Horder1, Horder2.
  assert (order1 = order2 → r1 = r2) as Hsame by (intros ->; congruence).
  destruct (FindPath_inv _ _ _ _ Hfind1) as [[Hnone1 ->]|Hfound1];
    destruct (FindPath_inv _ _ _ _ Hfind2) as [[Hnone2 ->]|Hfound2].
  - done.
  - destruct Hfound2 as (before & entry & after & -> & _ & _ & Hvisit).
    destruct (no_match_not_found request order1 entry Hnone1).
    + rewrite Hperm. set_solver.
    + by eexists.
  - destruct Hfound1 as (before & entry & after & -> & _ & _ & Hvisit).
    destruct (no_match_not_found request order2 entry Hnone2).
    + rewrite <- Hperm. set_solver.
    + by eexists.
  - destruct Hfound1 as (before1 & entry1 & after1 & -> & _ & -> & Hvisit1).
    destruct Hfound2 as (before2 & entry2 & after2 & -> & _ & -> & Hvisit2).
    simpl. repeat split; try done.
    intros Hunique.
    rewrite (Hunique entry1 entry2); [done|set_solver| |by eexists|by eexists].
    rewrite Hperm. set_solver.
Qed.

End FindPathProperties.

(** * Concrete contracts and requests *)

(** The orders of a [range] over a map of one or two entries. *)
Lemma range_order_one (path : string) (pathItem : PathItem) :
  range_order (contract {[ path := pathItem ]}) [(path, pathItem)].
Proof.
  split; [by eexists|]. unfold PathItems. simpl.
  by rewrite map_to_list_singleton.
Qed.

Lemma range_order_two (path1 path2 : string) (item1 item2 : PathItem) :
  path1 ≠ path2 →
  range_order (contract {[ path1 := item1; path2 := item2 ]})
              [(path1, item1); (path2, item2)] ∧
  range_order (contract {[ path1 := item1; path2 := item2 ]})
              [(path2, item2); (path1, item1)].
Proof.
  intros Hne. unfold range_order, PathItems. simpl.
  rewrite map_to_list_insert by by rewrite lookup_singleton_ne.
  rewrite map_to_list_singleton.
  split; (split; [by eexists|]); [done|apply Permutation_swap].
Qed.

(** C1: [FindPath] panics on the request GET /b/1 against the contract
    whose only template is /a/{id}, with the path-located integer parameter
    id: [comparePaths] strips the first and last byte of the one-byte
    segment a, a slice expression out of range.  The map has one entry, so
    that this is its only order. *)
Theorem FindPath_panics (pf : string → bool) :
  map_to_list (PathItems
    (contract
       {[ "/a/{id}" := getItem [pathParam "id" helpers.Integer] [] ]}))
    = [("/a/{id}", getItem [pathParam "id" helpers.Integer] [])] ∧
  slice "a" 1 (Z.of_nat (String.length "a") - 1) = Panics ∧
  comparePaths pf (segments "/a/{id}") (segments "/b/1")
               [pathParam "id" helpers.Integer] "/b/1" = Panics ∧
  FindPath pf (GET "/b/1")
           (contract
              {[ "/a/{id}" := getItem [pathParam "id" helpers.Integer] [] ]})
           [("/a/{id}", getItem [pathParam "id" helpers.Integer] [])]
    = Panics.
Proof. split; [apply map_to_list_singleton|by repeat split]. Qed.

(** C2: the literal segment kids of the template /kids/{id} is
    type-checked: without its first and last byte it reads id, the name of
    the path-located integer parameter, and as its text is not a number it
    is replaced by the sentinel; the request GET /kids/5, whose value 5
    conforms to integer, is then not resolved. *)
Theorem literal_segment_checked :
  strings.Contains "kids" "{" = false ∧
  inner "kids" = "id" ∧
  conforms strconv.ParseFloat_ok helpers.Integer "5" = true ∧
  checkParams strconv.ParseFloat_ok [pathParam "id" helpers.Integer]
              "kids" "kids" = Returns FAIL ∧
  comparePaths strconv.ParseFloat_ok (segments "/kids/{id}")
               (segments "/kids/5") [pathParam "id" helpers.Integer] "/kids/5"
    = Returns (false, []) ∧
  FindPath strconv.ParseFloat_ok (GET "/kids/5")
           (contract
              {[ "/kids/{id}" := getItem [pathParam "id" helpers.Integer] [] ]})
           [("/kids/{id}", getItem [pathParam "id" helpers.Integer] [])]
    = Returns (Resolution None [missingError "/kids/5"] "").
Proof. by repeat split. Qed.

(** C3: the value &&FAIL&& is not a number and so does not conform to
    integer, yet the request /items/&&FAIL&& matches the template
    /items/{id} with the path-located integer parameter id: the sentinel
    that replaces the value is the value itself, and GET /items/&&FAIL&&
    is resolved to the template.  The request /abc/.. likewise matches the
    template /{id}/.., where [filepath.Join] cancels the replaced value. *)
Theorem sentinel_value_matches :
  conforms strconv.ParseFloat_ok helpers.Integer "&&FAIL&&" = false ∧
  comparePaths strconv.ParseFloat_ok (segments "/items/{id}")
               (segments "/items/&&FAIL&&") [pathParam "id" helpers.Integer]
               "/items/&&FAIL&&"
    = Returns (true, []) ∧
  FindPath strconv.ParseFloat_ok (GET "/items/&&FAIL&&")
           (contract
              {[ "/items/{id}" := getItem [pathParam "id" helpers.Integer] [] ]})
           [("/items/{id}", getItem [pathParam "id" helpers.Integer] [])]
    = Returns (Resolution
                 (Some (getItem [pathParam "id" helpers.Integer] []))
                 [] "/items/{id}") ∧
  conforms strconv.ParseFloat_ok helpers.Integer "abc" = false ∧
  comparePaths strconv.ParseFloat_ok (segments "/{id}/..")
               (segments "/abc/..") [pathParam "id" helpers.Integer]
               "/abc/.."
    = Returns (true, []).
Proof. by repeat split. Qed.

(** C4: the request GET /b/1 matches no template of the contract whose
    only template is /a/{id}, with the path-located integer parameter id
    (its path is not the template and its first segment is not the literal
    a), yet [FindPath] does not return the missing-path error: it panics,
    at the slice of the one-byte segment a. *)
Theorem FindPath_missing_panics (pf : string → bool) :
  let pathItem := getItem [pathParam "id" helpers.Integer] [] in
  let document := contract {[ "/a/{id}" := pathItem ]} in
  map_to_list (PathItems document) = [("/a/{id}", pathItem)] ∧
  URL_Path (GET "/b/1") ≠ "/a/{id}" ∧
  ¬ Forall2 agrees (segments "/a/{id}") (segments (URL_Path (GET "/b/1"))) ∧
  FindPath pf (GET "/b/1") document [("/a/{id}", pathItem)] = Panics ∧
  FindPath pf (GET "/b/1") document [("/a/{id}", pathItem)]
    ≠ Returns (Resolution None [missingError "/b/1"] "").
Proof.
  intros pathItem document.
  split; [apply map_to_list_singleton|]. split; [done|]. split; [|by split].
  intros Hagree. apply Forall2_cons in Hagree as [[Hbrace|Hsame] _]; done.
Qed.

(** C5 fails: /pets/mine is a template of the contract with a GET
    operation, and GET /pets/mine is resolved to the template /pets/{name}
    and its path item when the [range] visits that template first. *)
Lemma literal_template_not_returned :
  let placeholder := getItem [pathParam "name" helpers.String] [] in
  let literal := getItem [] [] in
  let document :=
    contract {[ "/pets/{name}" := placeholder; "/pets/mine" := literal ]} in
  PathItems document !! "/pets/mine" = Some literal ∧
  is_Some (operationFor http.MethodGet literal) ∧
  literal ≠ placeholder ∧
  resolves strconv.ParseFloat_ok (GET "/pets/mine") document
           (Returns (Resolution (Some placeholder) [] "/pets/{name}")).
Proof.
  intros placeholder literal document. split; [|split; [|split]].
  - unfold PathItems. simpl. rewrite lookup_insert_ne by done.
    apply lookup_singleton_eq.
  - by eexists.
  - done.
  - right. exists [("/pets/{name}", placeholder); ("/pets/mine", literal)].
    split; [by apply range_order_two|done].
Qed.

(** C8 fails: the request GET /pets/1 has two resolutions against the
    contract with the templates /pets/{a} and /pets/{b}, one for each order
    of the [range]. *)
Lemma two_resolutions :
  let document :=
    contract {[ "/pets/{a}" := getItem [] [];
                "/pets/{b}" := getItem [] [] ]} in
  resolves strconv.ParseFloat_ok (GET "/pets/1") document
           (Returns (Resolution (Some (getItem [] [])) [] "/pets/{a}")) ∧
  resolves strconv.ParseFloat_ok (GET "/pets/1") document
           (Returns (Resolution (Some (getItem [] [])) [] "/pets/{b}")) ∧
  Returns (Resolution (Some (getItem [] [])) [] "/pets/{a}")
    ≠ Returns (Resolution (Some (getItem [] [])) [] "/pets/{b}").
Proof.
  intros document.
  destruct (range_order_two "/pets/{a}" "/pets/{b}"
                            (getItem [] []) (getItem [] [])) as [H1 H2];
    [done|].
  split; [|split; [|done]].
  - right.
    by exists [("/pets/{a}", getItem [] []); ("/pets/{b}", getItem [] [])].
  - right.
    by exists [("/pets/{b}", getItem [] []); ("/pets/{a}", getItem [] [])].
Qed.

(** C9 fails: against a contract whose map has the empty string as a key,
    a request with an empty path is resolved to a path item and to the
    empty template. *)
Lemma empty_template_found :
  resolves strconv.ParseFloat_ok (GET "")
           (contract {[ "" := getItem [] [] ]})
           (Returns (Resolution (Some (getItem [] [])) [] "")).
Proof.
  right. exists [("", getItem [] [])]. split; [apply range_order_one|done].
Qed.

(** * The theorems at concrete contracts and requests *)

(** The template /items/{id} with the integer parameter id: the request
    /items/42 matches it and the request /items/abc does not. *)
Lemma comparePaths_placeholder_witness :
  conforms strconv.ParseFloat_ok helpers.Integer "42" = true ∧
  comparePaths strconv.ParseFloat_ok ["items"; "{id}"] ["items"; "42"]
               [pathParam "id" helpers.Integer] "/items/42"
    = Returns (true, []) ∧
  conforms strconv.ParseFloat_ok helpers.Integer "abc" = false ∧
  comparePaths strconv.ParseFloat_ok ["items"; "{id}"] ["items"; "abc"]
               [pathParam "id" helpers.Integer] "/items/abc"
    = Returns (false, []).
Proof.
  assert (Forall (λ seg, (2 ≤ String.length seg)%nat) (["items"] ++ []))
    as Hlen by (repeat constructor).
  assert (Forall (λ seg, ∀ p, p ∈ [pathParam "id" helpers.Integer] →
                         In_ p = helpers.Path → Name p ≠ inner seg)
                 (["items"] ++ [])) as Hnames.
  { constructor; [|constructor].
    intros p Hp _. apply list_elem_of_singleton in Hp. by rewrite Hp. }
  assert (∀ p, p ∈ [pathParam "id" helpers.Integer] →
               In_ p = helpers.Path → Name p = "id" →
               Schema_Type p = Some [helpers.Integer]) as Htypes.
  { intros p Hp _ _. apply list_elem_of_singleton in Hp. by rewrite Hp. }
  split; [reflexivity|]. split; [|split; [reflexivity|]].
  - apply (comparePaths_placeholder strconv.ParseFloat_ok ["items"] [] "id"
             helpers.Integer "42" "/items/42" _ Hlen Hnames Htypes).
    reflexivity.
  - apply (comparePaths_placeholder strconv.ParseFloat_ok ["items"] [] "id"
             helpers.Integer "abc" "/items/abc" _ Hlen Hnames Htypes).
    + reflexivity.
    + exists (pathParam "id" helpers.Integer).
      split; [apply list_elem_of_singleton; reflexivity|]. split; reflexivity.
    + discriminate.
    + repeat constructor; discriminate.
Defined.

(** The request GET /items/abc against the template /items/{id} with the
    integer parameter id. *)
Lemma FindPath_missing_witness :
  let pathItem := getItem [pathParam "id" helpers.Integer] [] in
  let document := contract {[ "/items/{id}" := pathItem ]} in
  is_Some (Paths document) ∧
  no_match strconv.ParseFloat_ok (GET "/items/abc")
           [("/items/{id}", pathItem)] ∧
  ∃ e,
    FindPath strconv.ParseFloat_ok (GET "/items/abc") document
             [("/items/{id}", pathItem)]
      = Returns (Resolution None [e] "") ∧
    ValidationType e = "path" ∧
    ValidationSubType e = "missing" ∧
    Message e = "Path '/items/abc' not found" ∧
    SpecLine e = -1 ∧
    SpecCol e = -1.
Proof.
  intros pathItem document.
  assert (is_Some (Paths document)) as Hpaths by (eexists; reflexivity).
  assert (no_match strconv.ParseFloat_ok (GET "/items/abc")
            [("/items/{id}", pathItem)])
    as Hnone.
  { constructor; [|constructor]. vm_compute. reflexivity. }
  split; [exact Hpaths|]. split; [exact Hnone|].
  destruct (FindPath_missing strconv.ParseFloat_ok _ _ _ Hpaths Hnone)
    as (e & Hfind & Htype & Hsub & Hmsg & _ & _ & Hline & Hcol).
  exists e. repeat split; assumption.
Defined.

(** The request GET /pets/mine when the [range] visits the template
    /pets/mine first. *)
Lemma FindPath_literal_witness :
  let placeholder := getItem [pathParam "name" helpers.String] [] in
  let literal := getItem [] [] in
  let document :=
    contract {[ "/pets/{name}" := placeholder; "/pets/mine" := literal ]} in
  range_order document
              ([] ++ ("/pets/mine", literal) :: [("/pets/{name}", placeholder)]) ∧
  is_Some (operationFor http.MethodGet literal) ∧
  no_match strconv.ParseFloat_ok (GET "/pets/mine") [] ∧
  FindPath strconv.ParseFloat_ok (GET "/pets/mine") document
           [("/pets/mine", literal); ("/pets/{name}", placeholder)]
    = Returns (Resolution (Some literal) [] "/pets/mine").
Proof.
  intros placeholder literal document.
  assert (range_order document
            ([] ++ ("/pets/mine", literal)
                :: [("/pets/{name}", placeholder)])) as Horder.
  { apply (range_order_two "/pets/{name}" "/pets/mine"). discriminate. }
  assert (is_Some (operationFor http.MethodGet literal)) as Hop.
  { eexists. reflexivity. }
  assert (no_match strconv.ParseFloat_ok (GET "/pets/mine") []) as Hnone.
  { constructor. }
  split; [exact Horder|]. split; [exact Hop|]. split; [exact Hnone|].
  destruct (FindPath_literal strconv.ParseFloat_ok (GET "/pets/mine") document
              [] [("/pets/{name}", placeholder)] literal Horder Hop)
    as (_ & _ & Hfind & _).
  exact (Hfind Hnone).
Defined.

(** The request /a/b on the template /a/b/c, with a parameter on which the
    loop over the segments would panic. *)
Lemma comparePaths_segment_count_witness :
  length (segments "/a/b/c") ≠ length (segments "/a/b") ∧
  comparePaths strconv.ParseFloat_ok (segments "/a/b/c") (segments "/a/b")
               [pathParam "b" helpers.Integer] "/a/b"
    = Returns (false, []).
Proof.
  assert (length (segments "/a/b/c") ≠ length (segments "/a/b")) as Hlen.
  { vm_compute. discriminate. }
  split; [exact Hlen|].
  exact (proj1 (comparePaths_segment_count strconv.ParseFloat_ok) _ _ _ _ Hlen).
Defined.

(** The template /a with a GET operation only, on the requests GET /a and
    BREW /a. *)
Lemma FindPath_operation_for_method_witness :
  let brew := {| Method := "BREW"; URL_Path := "/a" |} in
  let found := Resolution (Some (getItem [] [])) [] "/a" in
  let document := contract {[ "/a" := getItem [] [] ]} in
  (FindPath strconv.ParseFloat_ok (GET "/a") document [("/a", getItem [] [])]
     = Returns found ∧
   pItem found = Some (getItem [] []) ∧
   (foundPath found, getItem [] []) ∈ [("/a", getItem [] [])] ∧
   is_Some (operationFor http.MethodGet (getItem [] []))) ∧
  (operationFor "BREW" (getItem [] []) = None ∧
   visit strconv.ParseFloat_ok brew (segments "/a") "/a" (getItem [] [])
     = Returns None) ∧
  (FindPath strconv.ParseFloat_ok brew document [("/a", getItem [] [])]
     = Returns (Resolution None [missingError "/a"] "") ∧
   no_match strconv.ParseFloat_ok brew [("/a", getItem [] [])] ∧
   is_Some (Paths document) ∧
   Method brew ∉ methods).
Proof.
  intros brew found document.
  assert (FindPath strconv.ParseFloat_ok (GET "/a") document
                   [("/a", getItem [] [])]
          = Returns found) as Hfind by reflexivity.
  assert (operationFor "BREW" (getItem [] []) = None) as Hop by reflexivity.
  assert (is_Some (Paths document)) as Hpaths by (eexists; reflexivity).
  assert (Method brew ∉ methods) as Hmethod.
  { unfold methods. rewrite !not_elem_of_cons.
    repeat split; try discriminate. apply not_elem_of_nil. }
  split; [|split].
  - split; [exact Hfind|]. split; [reflexivity|].
    exact (proj1 (FindPath_operation_for_method strconv.ParseFloat_ok
                    (GET "/a") document [("/a", getItem [] [])])
                 found (getItem [] []) Hfind eq_refl).
  - split; [exact Hop|].
    exact (proj1 (proj2 (FindPath_operation_for_method strconv.ParseFloat_ok
                           brew document [("/a", getItem [] [])]))
                 (segments "/a") "/a" (getItem [] []) Hop).
  - destruct (proj2 (proj2 (FindPath_operation_for_method
                              strconv.ParseFloat_ok brew document
                              [("/a", getItem [] [])])) Hmethod)
      as [Hnone Hmissing].
    split; [exact (Hmissing Hpaths)|]. split; [exact Hnone|].
    split; [exact Hpaths|exact Hmethod].
Defined.

(** The request GET /pets/1 on the templates /pets/{a} and /pets/{b}, in
    the two orders of the [range]. *)
Lemma FindPath_order_witness :
  let document :=
    contract {[ "/pets/{a}" := getItem [] [];
                "/pets/{b}" := getItem [] [] ]} in
  let order1 := [("/pets/{a}", getItem [] []); ("/pets/{b}", getItem [] [])] in
  let order2 := [("/pets/{b}", getItem [] []); ("/pets/{a}", getItem [] [])] in
  let r1 := Resolution (Some (getItem [] [])) [] "/pets/{a}" in
  let r2 := Resolution (Some (getItem [] [])) [] "/pets/{b}" in
  range_order document order1 ∧
  range_order document order2 ∧
  FindPath strconv.ParseFloat_ok (GET "/pets/1") document order1
    = Returns r1 ∧
  FindPath strconv.ParseFloat_ok (GET "/pets/1") document order2
    = Returns r2 ∧
  validationErrors r1 = validationErrors r2 ∧
  (pItem r1 = None ↔ pItem r2 = None).
Proof.
  intros document order1 order2 r1 r2.
  assert (range_order document order1 ∧ range_order document order2)
    as [Horder1 Horder2].
  { apply range_order_two. discriminate. }
  assert (FindPath strconv.ParseFloat_ok (GET "/pets/1") document order1
          = Returns r1) as Hfind1 by reflexivity.
  assert (FindPath strconv.ParseFloat_ok (GET "/pets/1") document order2
          = Returns r2) as Hfind2 by reflexivity.
  split; [exact Horder1|]. split; [exact Horder2|].
  split; [exact Hfind1|]. split; [exact Hfind2|].
  destruct (FindPath_order strconv.ParseFloat_ok (GET "/pets/1") document
              order1 order2 r1 r2 Horder1 Horder2 Hfind1 Hfind2)
    as (Herrs & Hnil & _).
  split; [exact Herrs|exact Hnil].
Defined.

(** The request GET /items/42 against the template /items/{id} with the
    integer parameter id. *)
Lemma FindPath_found_key_witness :
  let pathItem := getItem [pathParam "id" helpers.Integer] [] in
  let document := contract {[ "/items/{id}" := pathItem ]} in
  let r := Resolution (Some pathItem) [] "/items/{id}" in
  range_order document [("/items/{id}", pathItem)] ∧
  FindPath strconv.ParseFloat_ok (GET "/items/42") document
           [("/items/{id}", pathItem)]
    = Returns r ∧
  pItem r = Some pathItem ∧
  PathItems document !! foundPath r = Some pathItem ∧
  (PathItems document !! "" = None → foundPath r ≠ "").
Proof.
  intros pathItem document r.
  assert (range_order document [("/items/{id}", pathItem)]) as Horder.
  { apply range_order_one. }
  assert (FindPath strconv.ParseFloat_ok (GET "/items/42") document
                   [("/items/{id}", pathItem)] = Returns r) as Hfind
    by reflexivity.
  split; [exact Horder|]. split; [exact Hfind|]. split; [reflexivity|].
  exact (FindPath_found_key strconv.ParseFloat_ok (GET "/items/42") document
           [("/items/{id}", pathItem)] r pathItem Horder Hfind eq_refl).
Defined.

(** * Further properties of [comparePaths] *)

Section ComparePathsFurther.

Variable pf : string → bool.

Lemma checkParams_no_path_param (params : list ParameterSpec) (seg s : string) :
  no_path_param params → checkParams pf params seg s = Returns s.
Proof.
  induction 1 as [|p params Hp _ IH]; simpl; [done|].
  by rewrite decide_False.
Qed.

(** Without a path-located parameter the loop over the segments takes the
    request value at a segment with a brace and the segment itself
    elsewhere. *)
Lemma implode_no_path_param (i : nat) (mapped requested : list string)
    (params : list ParameterSpec) (imploded : list string) :
  no_path_param params →
  (i + length mapped ≤ length requested)%nat →
  implode pf i mapped requested params imploded
    = Returns (imploded ++
               zip_with (λ seg v, if strings.Contains seg "{" then v else seg)
                        mapped (drop i requested)).
Proof.
  intros Hparams. revert i imploded.
  induction mapped as [|seg mapped IH]; intros i imploded Hlen; simpl in *.
  { by rewrite app_nil_r. }
  destruct (lookup_lt_is_Some_2 requested i) as [v Hv]; [lia|].
  rewrite (drop_S _ _ _ Hv). unfold index. rewrite Hv.
  assert ((if strings.Contains seg "{" then Returns v else Returns seg)
          = Returns (if strings.Contains seg "{" then v else seg)) as ->
    by by destruct (strings.Contains seg "{").
  simpl. rewrite checkParams_no_path_param by done. simpl.
  rewrite IH by lia. by rewrite <- app_assoc.
Qed.

Lemma zip_with_agrees (mapped requested : list string) :
  length mapped = length requested →
  zip_with (λ seg v, if strings.Contains seg "{" then v else seg)
           mapped requested = requested
  ↔ Forall2 agrees mapped requested.
Proof.
  revert requested.
  induction mapped as [|seg mapped IH]; intros [|v requested] Hlen;
    simpl in *; try done.
  injection Hlen as Hlen. rewrite Forall2_cons, <- (IH _ Hlen).
  unfold agrees. split.
  - intros [= Hseg Hrest]. split; [|done].
    destruct (strings.Contains seg "{"); [by left|by right].
  - intros [[Hbrace| ->] ->]; [by rewrite Hbrace|].
    by destruct (strings.Contains v "{").
Qed.

Lemma zip_with_plain (mapped requested : list string) :
  Forall plain requested →
  Forall (λ seg, strings.Contains seg "{" = true ∨ plain seg) mapped →
  Forall plain
    (zip_with (λ seg v, if strings.Contains seg "{" then v else seg)
              mapped requested).
Proof.
  intros Hreq Hmapped. revert requested Hreq.
  induction Hmapped as [|seg mapped Hseg _ IH]; intros requested Hreq;
    [constructor|].
  destruct Hreq as [|v requested Hv Hreq]; simpl; constructor; [|by apply IH].
  destruct (strings.Contains seg "{") eqn:Hbrace; [done|].
  by destruct Hseg.
Qed.

(** X5: when no parameter is path-located, the request segments are ones
    that [filepath.Join] copies unchanged and so are the template segments
    without a brace, [comparePaths] reports a match exactly when the
    template and the request have the same number of segments and every
    template segment holds a brace or is the request segment; it never
    panics and never consults [ParseFloat]. *)
Theorem comparePaths_structural (mapped requested : list string)
    (params : list ParameterSpec) (path : string) :
  no_path_param params →
  Forall plain requested →
  Forall (λ seg, strings.Contains seg "{" = true ∨ plain seg) mapped →
  (Forall2 agrees mapped requested →
   comparePaths pf mapped requested params path = Returns (true, [])) ∧
  (¬ Forall2 agrees mapped requested →
   comparePaths pf mapped requested params path = Returns (false, [])).
Proof.
  intros Hparams Hreq Hmapped. unfold comparePaths.
  case_decide as Hlen.
  { split; [|done]. intros Hagree. by apply Forall2_length in Hagree. }
  assert (length mapped = length requested) as Hlen'
    by (destruct (decide (length mapped = length requested)); done).
  rewrite implode_no_path_param by (done || lia).
  rewrite drop_0. simpl.
  pose proof (zip_with_agrees mapped requested Hlen') as Hzip.
  pose proof (zip_with_plain mapped requested Hreq Hmapped) as Hplain.
  split.
  - intros Hagree. apply Hzip in Hagree. rewrite Hagree. by rewrite decide_True.
  - intros Hagree. rewrite decide_False; [done|]. intros Hjoin.
    apply Hagree, Hzip.
    destruct requested as [|v requested].
    + destruct mapped; [done|simpl in Hlen'; lia].
    + destruct mapped as [|seg mapped]; [simpl in Hlen'; lia|].
      by apply filepath_Join_plain_inj in Hjoin.
Qed.

(** X2: [comparePaths] panics exactly when the template and the request
    have the same number of segments and, at some segment of the template,
    either the segment has fewer than two bytes while some parameter is
    path-located (the slice of the segment is out of range), or a
    path-located parameter called as the segment without its first and last
    byte has no schema (its types are read through a nil pointer); in every
    other case it returns, with no error. *)
Theorem comparePaths_panics_iff (mapped requested : list string)
    (params : list ParameterSpec) (path : string) :
  (comparePaths pf mapped requested params path = Panics ↔
   length mapped = length requested ∧
   Exists (λ seg,
             ((String.length seg < 2)%nat ∧ ¬ no_path_param params) ∨
             (∃ p, p ∈ params ∧ In_ p = helpers.Path ∧
                   Name p = inner seg ∧ Schema_Type p = None)) mapped) ∧
  (comparePaths pf mapped requested params path ≠ Panics →
   ∃ ok, comparePaths pf mapped requested params path = Returns (ok, [])).
Proof.
  split; [apply comparePaths_Panics|].
  intros Hreturns.
  destruct (comparePaths pf mapped requested params path)
    as [[ok errs]|] eqn:Hcmp; [|done].
  apply comparePaths_errors in Hcmp as ->. by exists ok.
Qed.

(** ** Parameters that declare several types *)









(** ** The segments of a path *)

Lemma Split1_leading_slash (path : string) :
  strings.Split1 ("/" +:+ path) slash = "" :: strings.Split1 path slash.
Proof. reflexivity. Qed.

Lemma segments_slash_Join (pieces : list string) :
  pieces ≠ [] → Forall slash_free pieces →
  segments ("/" +:+ strings.Join pieces "/") = pieces.
Proof.
  intros Hne Hfree. unfold segments.
  by rewrite Split1_leading_slash, (Split1_Join pieces).
Qed.

(** X7: splitting a path into its segments undoes joining them: the
    segments of the path made of a slash and of pieces without a slash,
    joined by slashes, are these pieces; the leading slash is optional when
    the first piece is not empty; and the empty path is the only one
    without a segment. *)
Theorem segments_Join (pieces : list string) :
  (pieces ≠ [] → Forall slash_free pieces →
   segments ("/" +:+ strings.Join pieces "/") = pieces ∧
   (head pieces ≠ Some "" → segments (strings.Join pieces "/") = pieces)) ∧
  (∀ path, segments path = [] ↔ path = "").
Proof.
  split.
  - intros Hne Hfree. split; [by apply segments_slash_Join|].
    intros Hhead. unfold segments. rewrite (Split1_Join pieces) by done.
    destruct pieces as [|piece pieces]; [done|].
    rewrite decide_False; [done|]. intros ->. by apply Hhead.
  - intros path. unfold segments. split; [|by intros ->].
    destruct path as [|c path]; [done|]. simpl.
    destruct (decide (c = slash)) as [->|Hc].
    + rewrite decide_True by done. intros Hsplit.
      by destruct (Split1_nonempty path slash).
    + destruct (strings.Split1 path slash) as [|piece rest] eqn:Hsplit;
        by rewrite decide_False.
Qed.


End ComparePathsFurther.

(** * Further properties of [FindPath] *)

Section FindPathFurther.

Variable pf : string → bool.

(** X1: whenever [FindPath] returns, its error list is empty exactly when
    it returns a path item; otherwise the list holds the missing-path error
    and nothing else.  No error about a parameter is ever returned:
    [comparePaths] never adds one to its list. *)
Theorem FindPath_errors request document order r :
  FindPath pf request document order = Returns r →
  (validationErrors r = [] ↔ is_Some (pItem r)) ∧
  (pItem r = None →
   validationErrors r = [missingError (URL_Path request)] ∧
   foundPath r = "") ∧
  (∀ mapped requested params path ok errs,
     comparePaths pf mapped requested params path = Returns (ok, errs) →
     errs = []).
Proof.
  intros Hfind. split; [|split].
  - destruct (FindPath_inv pf _ _ _ _ Hfind) as [[_ ->]|Hfound]; simpl.
    + split; [done|]. by intros [? ?].
    + destruct Hfound as (before & entry & after & _ & _ & -> & _). simpl.
      split; [by eexists|done].
  - intros Hnone.
    destruct (FindPath_inv pf _ _ _ _ Hfind) as [[_ ->]|Hfound]; [done|].
    by destruct Hfound as (before & entry & after & _ & _ & -> & _).
  - intros mapped requested params path ok errs.
    apply comparePaths_errors.
Qed.

(** X4: [FindPath] returns the first template, in the order of the
    iteration, at which the loop body breaks: it returns the path item
    [pathItem] under the template [path] exactly when the document has
    paths, the order splits around that entry, the loop passes every entry
    before it and breaks at it; the entries after it are not visited. *)
Theorem FindPath_first_found request document order pathItem errs path :
  FindPath pf request document order
    = Returns (Resolution (Some pathItem) errs path)
  ↔ is_Some (Paths document) ∧
    errs = [] ∧
    ∃ before after,
      order = before ++ (path, pathItem) :: after ∧
      no_match pf request before ∧
      found_at pf request (path, pathItem).
Proof.
  split.
  - intros Hfind. split; [by eapply FindPath_returns_paths|].
    destruct (FindPath_inv pf _ _ _ _ Hfind) as [[_ ?]|Hfound]; [done|].
    destruct Hfound as (before & [path' item] & after & -> & Hnone & Hr & Hv).
    simpl in *. injection Hr as -> -> ->. split; [done|].
    exists before, after. split; [done|]. split; [done|]. by eexists.
  - intros (Hpaths & -> & before & after & -> & Hnone & r & Hvisit).
    rewrite (FindPath_found pf _ _ _ _ _ _ Hpaths Hnone Hvisit).
    by destruct (visit_found pf _ _ _ _ _ Hvisit) as [-> _].
Qed.

Lemma comparePaths_no_path_param_returns (mapped requested : list string)
    (params : list ParameterSpec) (path : string) :
  no_path_param params →
  ∃ ok, comparePaths pf mapped requested params path = Returns (ok, []).
Proof.
  intros Hparams. unfold comparePaths. case_decide as Hlen; [by eexists|].
  rewrite implode_no_path_param by (done || lia). simpl.
  case_decide; by eexists.
Qed.

Lemma visit_safe request reqPathSegments entry :
  safe_entry (Method request) entry →
  ∃ found, visit pf request reqPathSegments entry.1 entry.2 = Returns found.
Proof.
  intros Hsafe.
  destruct (visit_methodCase pf request reqPathSegments entry.1 entry.2)
    as [keep ->].
  unfold methodCase.
  destruct (operationFor _ _) as [op|] eqn:Hop; [|by eexists].
  case_decide; [by eexists|].
  assert (∃ ok, comparePaths pf (segments entry.1) reqPathSegments
                  (Item_Parameters entry.2 ++ Op_Parameters op)
                  (URL_Path request) = Returns (ok, [])) as [ok ->].
  { destruct (Hsafe op Hop) as [Hparams|[Hsegs Hschemas]];
      [by apply comparePaths_no_path_param_returns|].
    apply comparePaths_returns. intros [_ Hpanics].
    apply Exists_exists in Hpanics as (seg & Hseg & Hat).
    rewrite Forall_forall in Hsegs. rewrite Forall_forall in Hschemas.
    destruct Hat as [[Hshort _]|(p & Hp & Hin & _ & Hnone)].
    - specialize (Hsegs seg Hseg). simpl in Hsegs. lia.
    - destruct (Hschemas p Hp Hin) as [? ?]. congruence. }
  simpl. destruct ok; by eexists.
Qed.

(** X3: [FindPath] returns, and does not panic, on a document that has
    paths and in which every template is such that, among the parameters
    of its path item and of its operation for the request method, none is
    path-located, or the path-located ones have a schema and the segments
    of the template have at least two bytes each. *)
Theorem FindPath_safe request document order :
  is_Some (Paths document) →
  Forall (safe_entry (Method request)) order →
  ∃ r, FindPath pf request document order = Returns r.
Proof.
  intros [paths Hpaths] Horder.
  assert (∃ r, pathLoop pf request (segments (URL_Path request)) order
               = Returns r) as [r Hloop].
  { induction Horder as [|[path pathItem] order Hentry _ IH]; simpl in *;
      [by eexists|].
    destruct (visit_safe request (segments (URL_Path request))
                         (path, pathItem) Hentry) as [[r|] Hvisit];
      simpl in Hvisit; rewrite Hvisit; simpl; [by eexists|done]. }
  unfold FindPath. rewrite Hpaths, Hloop. simpl.
  destruct (pItem r); by eexists.
Qed.


Lemma methodCase_uniform keep1 keep2 request1 request2 reqPathSegments segs
    path pathItem params operation :
  URL_Path request1 = URL_Path request2 →
  methodCase pf keep1 request1 reqPathSegments segs path pathItem params
             operation
  = methodCase pf keep2 request2 reqPathSegments segs path pathItem params
               operation.
Proof.
  intros Hpath. unfold methodCase. destruct operation as [op|]; [|done].
  rewrite Hpath. case_decide; [done|].
  destruct (comparePaths pf _ _ _ _) as [[ok errs]|] eqn:Hcmp; [|done].
  apply comparePaths_errors in Hcmp as ->. simpl.
  by destruct ok, keep1, keep2.
Qed.

(** X9: the cases of the eight methods are the same code: two requests
    with the same path are resolved alike against a contract in which
    every path item has, for the method of the one, the operation it has
    for the method of the other (the POST case, which drops the errors of
    [comparePaths], included). *)
Theorem FindPath_method_uniform request1 request2 document order :
  URL_Path request1 = URL_Path request2 →
  Forall (λ entry, operationFor (Method request1) entry.2
                   = operationFor (Method request2) entry.2) order →
  FindPath pf request1 document order = FindPath pf request2 document order.
Proof.
  intros Hpath Hops. unfold FindPath. rewrite Hpath.
  assert (pathLoop pf request1 (segments (URL_Path request2)) order
          = pathLoop pf request2 (segments (URL_Path request2)) order) as ->;
    [|done].
  induction Hops as [|[path pathItem] order Hop _ IH]; simpl in *; [done|].
  destruct (visit_methodCase pf request1 (segments (URL_Path request2))
                             path pathItem) as [keep1 ->].
  destruct (visit_methodCase pf request2 (segments (URL_Path request2))
                             path pathItem) as [keep2 ->].
  rewrite Hop, (methodCase_uniform keep1 keep2 request1 request2) by done.
  by rewrite IH.
Qed.

Lemma visit_Panics request reqPathSegments path pathItem :
  visit pf request reqPathSegments path pathItem = Panics ↔
  ∃ op, operationFor (Method request) pathItem = Some op ∧
        URL_Path request ≠ path ∧
        comparePaths pf (segments path) reqPathSegments
                     (Item_Parameters pathItem ++ Op_Parameters op)
                     (URL_Path request) = Panics.
Proof.
  destruct (visit_methodCase pf request reqPathSegments path pathItem)
    as [keep ->].
  unfold methodCase. destruct (operationFor _ _) as [op|].
  - case_decide as Hpath.
    + split; [done|]. by intros (op' & _ & Hne & _).
    + destruct (comparePaths pf _ _ _ _) as [[ok errs]|] eqn:Hcmp; simpl.
      * split; [by destruct ok|].
        intros (op' & [= <-] & _ & Hpanic). congruence.
      * split; [|done]. intros _. by exists op.
  - split; [done|]. by intros (op' & ? & _).
Qed.

Lemma pathLoop_Panics request order :
  pathLoop pf request (segments (URL_Path request)) order = Panics ↔
  ∃ before entry after,
    order = before ++ entry :: after ∧ no_match pf request before ∧
    visit pf request (segments (URL_Path request)) entry.1 entry.2 = Panics.
Proof.
  induction order as [|[path pathItem] order IH]; simpl.
  - split; [done|]. intros (before & entry & after & Horder & _).
    by destruct before.
  - destruct (visit pf _ _ path pathItem) as [[r|]|] eqn:Hvisit; simpl.
    + split; [done|]. intros (before & entry & after & Horder & Hnone & Hv).
      destruct before as [|first before]; injection Horder as <- ->.
      * simpl in Hv. congruence.
      * apply Forall_cons in Hnone as [Hnone _]. simpl in Hnone. congruence.
    + rewrite IH. split.
      * intros (before & entry & after & -> & Hnone & Hv).
        exists ((path, pathItem) :: before), entry, after.
        split; [done|]. split; [|done]. by constructor.
      * intros (before & entry & after & Horder & Hnone & Hv).
        destruct before as [|first before]; injection Horder as <- ->.
        -- simpl in Hv. congruence.
        -- apply Forall_cons in Hnone as [_ Hnone].
           by exists before, entry, after.
    + split; [|done]. intros _. exists [], (path, pathItem), order.
      split; [done|]. split; [constructor|done].
Qed.

(** X12: [FindPath] panics exactly when the document has no paths
    ([document.Paths] is nil), or when the iteration, having passed every
    template before it, reaches a template that has an operation for the
    request method, differs from the request path, has as many segments as
    the request, and on one of whose segments the loop over the parameters
    of the path item and of that operation panics: the segment has fewer
    than two bytes and a parameter is path-located, or a path-located
    parameter called as the segment without its first and last byte has no
    schema. *)
Theorem FindPath_panics_iff request document order :
  FindPath pf request document order = Panics ↔
  Paths document = None ∨
  ∃ before path pathItem op after,
    order = before ++ (path, pathItem) :: after ∧
    no_match pf request before ∧
    operationFor (Method request) pathItem = Some op ∧
    URL_Path request ≠ path ∧
    length (segments path) = length (segments (URL_Path request)) ∧
    Exists (panics_at (Item_Parameters pathItem ++ Op_Parameters op))
           (segments path).
Proof.
  destruct (Paths document) as [paths|] eqn:Hpaths.
  2:{ rewrite FindPath_no_paths by done. split; [by left|done]. }
  assert (FindPath pf request document order = Panics ↔
          pathLoop pf request (segments (URL_Path request)) order = Panics)
    as ->.
  { unfold FindPath. rewrite Hpaths. simpl.
    destruct (pathLoop pf _ _ order) as [r|]; simpl; [|done].
    by destruct (pItem r). }
  rewrite pathLoop_Panics. split.
  - intros (before & [path pathItem] & after & -> & Hnone & Hvisit).
    apply visit_Panics in Hvisit as (op & Hop & Hne & Hcmp).
    apply comparePaths_Panics in Hcmp as (Hlen & Hpanics).
    right. by exists before, path, pathItem, op, after.
  - intros [?|(before & path & pathItem & op & after & -> & Hnone & Hop &
               Hne & Hlen & Hpanics)]; [done|].
    exists before, (path, pathItem), after. split; [done|]. split; [done|].
    apply visit_Panics. exists op. split; [done|]. split; [done|].
    by apply comparePaths_Panics.
Qed.

End FindPathFurther.

(** * Properties of [ValidateSchema] *)

Section SchemaValidationProperties.

Variable Node : Type.
Variable Locate : Node → string → option (Z * Z).
Variable helpers_Schema : string.
Variable HowToFixInvalidSchema : string.

Lemma flattenStep_located jk root Content failures er :
  flattenStep Node Locate jk (root :: Content) failures er
    = Returns (failures ++
               if actionable er
               then [failure_of jk (Locate root (KeywordLocation er)) er]
               else []).
Proof.
  unfold flattenStep, actionable.
  destruct (bool_decide (KeywordLocation er = "")); simpl;
    [by rewrite app_nil_r|].
  destruct (strings.HasPrefix (Error er) "doesn't validate with"); simpl;
    [by rewrite app_nil_r|].
  case_decide as Herr.
  - rewrite bool_decide_false by done. simpl.
    by destruct (Locate root (KeywordLocation er)) as [[line column]|].
  - rewrite bool_decide_true by (by destruct (decide (Error er = ""))).
    simpl. by rewrite app_nil_r.
Qed.

Lemma flatten_located jk root Content schFlatErrs failures :
  flatten Node Locate jk (root :: Content) schFlatErrs failures
    = Returns (failures ++
               map (λ er, failure_of jk (Locate root (KeywordLocation er)) er)
                   (List.filter actionable schFlatErrs)).
Proof.
  revert failures.
  induction schFlatErrs as [|er schFlatErrs IH]; intros failures; simpl.
  { by rewrite app_nil_r. }
  rewrite flattenStep_located. simpl. rewrite IH.
  destruct (actionable er); simpl; [by rewrite <- app_assoc|].
  by rewrite app_nil_r.
Qed.

Lemma flattenStep_no_content jk failures er :
  flattenStep Node Locate jk [] failures er
    = if actionable er then Panics else Returns failures.
Proof.
  unfold flattenStep, actionable.
  destruct (bool_decide (KeywordLocation er = "")); simpl; [done|].
  destruct (strings.HasPrefix (Error er) "doesn't validate with"); simpl;
    [done|].
  case_decide as Herr.
  - by rewrite bool_decide_false.
  - by rewrite bool_decide_true by (by destruct (decide (Error er = ""))).
Qed.

Lemma flatten_no_content jk schFlatErrs failures :
  flatten Node Locate jk [] schFlatErrs failures
    = if decide (List.filter actionable schFlatErrs = [])
      then Returns failures else Panics.
Proof.
  induction schFlatErrs as [|er schFlatErrs IH]; simpl; [done|].
  rewrite flattenStep_no_content.
  destruct (actionable er); simpl; [done|]. apply IH.
Qed.

(** X10: the failures [ValidateSchema] collects are made, in their order,
    of the entries of the flat output that have a keyword location and a
    message other than the wrapper message of the engine, and of no other
    entry: each failure has the message and the keyword location of its
    entry, a reason and a location that are not empty, the error of the
    engine, and the line and column of the node located for it (zero when
    none is located).  The loop panics exactly when there is such an entry
    and the parsed rendering of the schema has no content. *)
Theorem flatten_failures jk Content schFlatErrs :
  (∀ failures,
     flatten Node Locate jk Content schFlatErrs [] = Returns failures →
     map Failure_Location failures
       = map KeywordLocation (List.filter actionable schFlatErrs) ∧
     map Failure_Reason failures
       = map Error (List.filter actionable schFlatErrs) ∧
     Forall (λ failure, Failure_Location failure ≠ "" ∧
                        Failure_Reason failure ≠ "" ∧
                        strings.HasPrefix (Failure_Reason failure)
                                          "doesn't validate with" = false ∧
                        OriginalError failure = jk) failures ∧
     (length failures ≤ length schFlatErrs)%nat ∧
     (∀ root, head Content = Some root →
        Forall (λ failure,
                  (Failure_Line failure, Failure_Column failure)
                  = default (0, 0)
                            (Locate root (Failure_Location failure)))
               failures)) ∧
  (flatten Node Locate jk Content schFlatErrs [] = Panics ↔
   Content = [] ∧ Exists (λ er, actionable er = true) schFlatErrs).
Proof.
  assert (∀ root,
    let failures :=
      map (λ er, failure_of jk (Locate root (KeywordLocation er)) er)
          (List.filter actionable schFlatErrs) in
    map Failure_Location failures
      = map KeywordLocation (List.filter actionable schFlatErrs) ∧
    map Failure_Reason failures
      = map Error (List.filter actionable schFlatErrs) ∧
    Forall (λ failure, Failure_Location failure ≠ "" ∧
                       Failure_Reason failure ≠ "" ∧
                       strings.HasPrefix (Failure_Reason failure)
                                         "doesn't validate with" = false ∧
                       OriginalError failure = jk) failures ∧
    (length failures ≤ length schFlatErrs)%nat ∧
    Forall (λ failure,
              (Failure_Line failure, Failure_Column failure)
              = default (0, 0) (Locate root (Failure_Location failure)))
           failures) as Hlocated.
  { intros root. simpl.
    induction schFlatErrs as [|er schFlatErrs (IH1 & IH2 & IH3 & IH4 & IH5)];
      simpl; [by repeat split|].
    destruct (actionable er) eqn:Her; simpl.
    - rewrite IH1, IH2. repeat split; try done; [|lia|].
      + constructor; [|done]. simpl. unfold actionable in Her.
        apply andb_prop in Her as [Her Herr].
        apply andb_prop in Her as [Hloc Hprefix].
        apply negb_true_iff in Hloc, Hprefix, Herr.
        apply bool_decide_eq_false in Hloc, Herr. done.
      + constructor; [|done]. simpl.
        by destruct (Locate root (KeywordLocation er)) as [[line column]|].
    - repeat split; try done. lia. }
  split.
  - intros failures Hflat. destruct Content as [|root Content].
    + rewrite flatten_no_content in Hflat. case_decide as Hnone; [|done].
      injection Hflat as <-. rewrite Hnone.
      repeat split; try done. simpl. lia.
    + rewrite flatten_located in Hflat. injection Hflat as <-.
      destruct (Hlocated root) as (H1 & H2 & H3 & H4 & H5).
      repeat split; try done. by intros root' [= <-].
  - destruct Content as [|root Content].
    + rewrite flatten_no_content. case_decide as Hnone.
      * split; [done|]. intros [_ Hex].
        apply Exists_exists in Hex as (er & Her & Hact).
        assert (er ∈ List.filter actionable schFlatErrs) as Hin.
        { apply list_elem_of_In, filter_In. split; [|done].
          by apply list_elem_of_In. }
        rewrite Hnone in Hin. by apply elem_of_nil in Hin.
      * split; [|done]. intros _. split; [done|].
        destruct (List.filter actionable schFlatErrs) as [|er rest] eqn:Hfilter;
          [done|].
        assert (In er (List.filter actionable schFlatErrs)) as Hin
          by (rewrite Hfilter; by left).
        apply filter_In in Hin as [Hin Hact].
        apply Exists_exists. exists er. split; [|done].
        by apply list_elem_of_In.
    + rewrite flatten_located. split; [done|]. by intros [? _].
Qed.

(** X11: [ValidateSchema] returns true, with no error, exactly when the
    schema compiled and the engine reports no error.  When it returns
    false, the engine reported a validation error and the schema has a type
    key: the result is exactly one error, of the schema type, at the line
    and column of that key, with the rendered schema as its context and the
    collected failures beneath it; this is so also when no entry of the flat
    output becomes a failure, the one error then having no failure beneath
    it.  From [jsch.Validate] on it panics exactly when the compiled schema
    is nil, when the error of the engine is not a validation error, and,
    on a validation error, when the loop over the flat output panics or
    the schema has no type key. *)
Theorem ValidateSchema_result jsch renderedSchema Content typeKeyNode :
  (∀ ok errs,
     ValidateSchema Node Locate helpers_Schema HowToFixInvalidSchema jsch
                    renderedSchema Content typeKeyNode
       = Returns (ok, errs) →
     (ok = true ↔ jsch = Some None) ∧
     (ok = true → errs = []) ∧
     (ok = false →
      ∃ e schFlatErrs keyNode,
        errs = [e] ∧
        jsch = Some (Some (validationError schFlatErrs)) ∧
        typeKeyNode = Some keyNode ∧
        flatten Node Locate (validationError schFlatErrs) Content
                schFlatErrs [] = Returns (SchemaValidationErrors e) ∧
        (List.filter actionable schFlatErrs = [] →
         SchemaValidationErrors e = []) ∧
        ValidationType (Base e) = helpers_Schema ∧
        Message (Base e) = "schema does not pass validation" ∧
        SpecLine (Base e) = keyNode.1 ∧
        SpecCol (Base e) = keyNode.2 ∧
        HowToFix (Base e) = HowToFixInvalidSchema ∧
        Context e = renderedSchema)) ∧
  (ValidateSchema Node Locate helpers_Schema HowToFixInvalidSchema jsch
                  renderedSchema Content typeKeyNode = Panics ↔
   jsch = None ∨
   jsch = Some (Some otherError) ∨
   ∃ schFlatErrs,
     jsch = Some (Some (validationError schFlatErrs)) ∧
     (flatten Node Locate (validationError schFlatErrs) Content
              schFlatErrs [] = Panics ∨
      typeKeyNode = None)).
Proof.
  unfold ValidateSchema.
  destruct jsch as [[[schFlatErrs|]|]|]; simpl.
  - destruct (flatten Node Locate (validationError schFlatErrs) Content
                      schFlatErrs []) as [failures|] eqn:Hflat; simpl.
    + destruct typeKeyNode as [keyNode|]; simpl.
      * split.
        -- intros ok errs [= <- <-]. split; [done|]. split; [done|].
           intros _. eexists _, schFlatErrs, keyNode.
           repeat split; try done. simpl.
           intros Hnone. destruct Content as [|root Content].
           ++ rewrite flatten_no_content in Hflat. case_decide; congruence.
           ++ rewrite flatten_located, Hnone in Hflat.
              by injection Hflat as <-.
        -- split; [done|].
           intros [?|[?|(flat & [= <-] & [?|?])]]; congruence.
      * split; [done|]. split; [|done]. intros _. right. right.
        exists schFlatErrs. split; [done|]. by right.
    + split; [done|]. split; [|done]. intros _. right. right.
      exists schFlatErrs. split; [done|]. by left.
  - split; [done|]. split; [|done]. intros _. right. by left.
  - split.
    + intros ok errs [= <- <-]. by repeat split.
    + split; [done|]. by intros [?|[?|(flat & ? & _)]].
  - split; [done|]. split; [|done]. intros _. by left.
Qed.

End SchemaValidationProperties.

(** * The further properties at concrete inputs *)

(** The request GET /items/42 against the template /items/{id} with the
    integer parameter id. *)
Lemma FindPath_errors_witness :
  let pathItem := getItem [pathParam "id" helpers.Integer] [] in
  let document := contract {[ "/items/{id}" := pathItem ]} in
  let r := Resolution (Some pathItem) [] "/items/{id}" in
  FindPath strconv.ParseFloat_ok (GET "/items/42") document
           [("/items/{id}", pathItem)]
    = Returns r ∧
  (validationErrors r = [] ↔ is_Some (pItem r)).
Proof.
  intros pathItem document r.
  assert (FindPath strconv.ParseFloat_ok (GET "/items/42") document
                   [("/items/{id}", pathItem)] = Returns r) as Hfind
    by reflexivity.
  split; [exact Hfind|].
  exact (proj1 (FindPath_errors strconv.ParseFloat_ok _ _ _ _ Hfind)).
Defined.

(** The template /a/{id} with the integer parameter id, on the request
    /b/1: the segment a has fewer than two bytes. *)
Lemma comparePaths_panics_iff_witness :
  length ["a"; "{id}"] = length ["b"; "1"] ∧
  ¬ no_path_param [pathParam "id" helpers.Integer] ∧
  (String.length "a" < 2)%nat ∧
  comparePaths strconv.ParseFloat_ok ["a"; "{id}"] ["b"; "1"]
               [pathParam "id" helpers.Integer] "/b/1" = Panics.
Proof.
  assert (¬ no_path_param [pathParam "id" helpers.Integer]) as Hparams.
  { intros Hnone. apply Forall_cons in Hnone as [Hnone _].
    apply Hnone. reflexivity. }
  assert ((String.length "a" < 2)%nat) as Hshort by (simpl; lia).
  split; [reflexivity|]. split; [exact Hparams|]. split; [exact Hshort|].
  apply (proj2 (proj1 (comparePaths_panics_iff strconv.ParseFloat_ok
                         ["a"; "{id}"] ["b"; "1"]
                         [pathParam "id" helpers.Integer] "/b/1"))).
  split; [reflexivity|].
  apply Exists_cons_hd. left. split; [exact Hshort|exact Hparams].
Defined.

(** The request GET /items/abc against the template /items/{id} with the
    integer parameter id. *)
Lemma FindPath_safe_witness :
  let pathItem := getItem [pathParam "id" helpers.Integer] [] in
  let document := contract {[ "/items/{id}" := pathItem ]} in
  let order := [("/items/{id}", pathItem)] in
  is_Some (Paths document) ∧
  Forall (safe_entry http.MethodGet) order ∧
  ∃ r, FindPath strconv.ParseFloat_ok (GET "/items/abc") document order
       = Returns r.
Proof.
  intros pathItem document order.
  assert (is_Some (Paths document)) as Hpaths by (eexists; reflexivity).
  assert (Forall (safe_entry (Method (GET "/items/abc"))) order) as Hsafe.
  { constructor; [|constructor]. intros op Hop. right. split.
    - change (segments ("/items/{id}", pathItem).1) with ["items"; "{id}"].
      repeat constructor.
    - injection Hop as <-. constructor; [|constructor].
      intros _. eexists. reflexivity. }
  split; [exact Hpaths|]. split; [exact Hsafe|].
  exact (FindPath_safe strconv.ParseFloat_ok (GET "/items/abc") document
                       order Hpaths Hsafe).
Defined.

(** The request GET /pets/1 on the templates /pets/{a} and /pets/{b}, in
    this order. *)
Lemma FindPath_first_found_witness :
  let document :=
    contract {[ "/pets/{a}" := getItem [] []; "/pets/{b}" := getItem [] [] ]} in
  let order := [("/pets/{a}", getItem [] []); ("/pets/{b}", getItem [] [])] in
  FindPath strconv.ParseFloat_ok (GET "/pets/1") document order
    = Returns (Resolution (Some (getItem [] [])) [] "/pets/{a}") ∧
  ∃ before after,
    order = before ++ ("/pets/{a}", getItem [] []) :: after ∧
    no_match strconv.ParseFloat_ok (GET "/pets/1") before ∧
    found_at strconv.ParseFloat_ok (GET "/pets/1")
             ("/pets/{a}", getItem [] []).
Proof.
  intros document order.
  assert (FindPath strconv.ParseFloat_ok (GET "/pets/1") document order
          = Returns (Resolution (Some (getItem [] [])) [] "/pets/{a}"))
    as Hfind by reflexivity.
  split; [exact Hfind|].
  exact (proj2 (proj2 (proj1 (FindPath_first_found strconv.ParseFloat_ok
                                _ _ _ _ _ _) Hfind))).
Defined.

(** The template /pets/{x} and the request /pets/mine, without
    parameters. *)
Lemma comparePaths_structural_witness :
  no_path_param [] ∧
  Forall plain ["pets"; "mine"] ∧
  Forall (λ seg, strings.Contains seg "{" = true ∨ plain seg)
         ["pets"; "{x}"] ∧
  Forall2 agrees ["pets"; "{x}"] ["pets"; "mine"] ∧
  comparePaths strconv.ParseFloat_ok ["pets"; "{x}"] ["pets"; "mine"] []
               "/pets/mine" = Returns (true, []).
Proof.
  assert (plain "pets") as Hpets by (repeat split; discriminate).
  assert (plain "mine") as Hmine by (repeat split; discriminate).
  assert (no_path_param []) as Hparams by constructor.
  assert (Forall plain ["pets"; "mine"]) as Hreq by (repeat constructor; done).
  assert (Forall (λ seg, strings.Contains seg "{" = true ∨ plain seg)
                 ["pets"; "{x}"]) as Hmapped.
  { constructor; [right; exact Hpets|].
    constructor; [left; reflexivity|constructor]. }
  assert (Forall2 agrees ["pets"; "{x}"] ["pets"; "mine"]) as Hagree.
  { constructor; [right; reflexivity|].
    constructor; [left; reflexivity|constructor]. }
  split; [exact Hparams|]. split; [exact Hreq|]. split; [exact Hmapped|].
  split; [exact Hagree|].
  exact (proj1 (comparePaths_structural strconv.ParseFloat_ok _ _ _
                  "/pets/mine" Hparams Hreq Hmapped) Hagree).
Defined.


(** The pieces items and 42. *)
Lemma segments_Join_witness :
  ["items"; "42"] ≠ [] ∧
  Forall slash_free ["items"; "42"] ∧
  segments ("/" +:+ strings.Join ["items"; "42"] "/") = ["items"; "42"] ∧
  segments (strings.Join ["items"; "42"] "/") = ["items"; "42"].
Proof.
  assert (["items"; "42"] ≠ []) as Hne by discriminate.
  assert (Forall slash_free ["items"; "42"]) as Hfree
    by (repeat constructor).
  destruct (proj1 (segments_Join ["items"; "42"]) Hne Hfree) as [Hslash Hnone].
  split; [exact Hne|]. split; [exact Hfree|]. split; [exact Hslash|].
  apply Hnone. discriminate.
Defined.


(** The requests GET /pets/1 and POST /pets/1 against a template with the
    same operation for both methods. *)
Lemma FindPath_method_uniform_witness :
  let pathItem :=
    {| Item_Parameters := [];
       Get := Some {| Op_Parameters := [pathParam "id" helpers.Integer] |};
       Post := Some {| Op_Parameters := [pathParam "id" helpers.Integer] |};
       Put := None; Delete := None; Options := None; Head := None;
       Patch := None; Trace := None |} in
  let document := contract {[ "/pets/{id}" := pathItem ]} in
  let post := {| Method := http.MethodPost; URL_Path := "/pets/1" |} in
  URL_Path (GET "/pets/1") = URL_Path post ∧
  Forall (λ entry, operationFor http.MethodGet entry.2
                   = operationFor http.MethodPost entry.2)
         [("/pets/{id}", pathItem)] ∧
  FindPath strconv.ParseFloat_ok (GET "/pets/1") document
           [("/pets/{id}", pathItem)]
    = FindPath strconv.ParseFloat_ok post document [("/pets/{id}", pathItem)].
Proof.
  intros pathItem document post.
  assert (Forall (λ entry, operationFor (Method (GET "/pets/1")) entry.2
                           = operationFor (Method post) entry.2)
                 [("/pets/{id}", pathItem)]) as Hops
    by (repeat constructor).
  split; [reflexivity|]. split; [exact Hops|].
  exact (FindPath_method_uniform strconv.ParseFloat_ok (GET "/pets/1") post
           document [("/pets/{id}", pathItem)] eq_refl Hops).
Defined.

(** A flat output of four entries, of which the first only becomes a
    failure. *)
Lemma flatten_failures_witness :
  let locate := λ (_ : unit) (location : string),
                  if decide (location = "/type") then Some (3, 7) else None in
  let schFlatErrs :=
    [ {| KeywordLocation := "/type"; Error := "expected string" |};
      {| KeywordLocation := ""; Error := "expected string" |};
      {| KeywordLocation := "/allOf";
         Error := "doesn't validate with '/allOf'" |};
      {| KeywordLocation := "/items"; Error := "" |} ] in
  let failures :=
    [ {| Failure_Reason := "expected string"; Failure_Location := "/type";
         Failure_Line := 3; Failure_Column := 7;
         OriginalError := validationError schFlatErrs |} ] in
  flatten unit locate (validationError schFlatErrs) [()] schFlatErrs []
    = Returns failures ∧
  map Failure_Location failures
    = map KeywordLocation (List.filter actionable schFlatErrs) ∧
  (length failures ≤ length schFlatErrs)%nat.
Proof.
  intros locate schFlatErrs failures.
  assert (flatten unit locate (validationError schFlatErrs) [()] schFlatErrs []
          = Returns failures) as Hflat by reflexivity.
  split; [exact Hflat|].
  destruct (proj1 (flatten_failures unit locate (validationError schFlatErrs)
                     [()] schFlatErrs) failures Hflat)
    as (Hloc & _ & _ & Hlen & _).
  split; [exact Hloc|exact Hlen].
Defined.

(** A validation error of the engine whose flat output has no entry that
    becomes a failure, on a schema whose type key is at line 4, column 9. *)
Lemma ValidateSchema_result_witness :
  let locate := λ (_ : unit) (_ : string), @None (Z * Z) in
  let schFlatErrs := [ {| KeywordLocation := ""; Error := "expected string" |} ] in
  ∃ e,
    ValidateSchema unit locate "schema" "fix the schema"
                   (Some (Some (validationError schFlatErrs))) "type: string"
                   [] (Some (4, 9))
      = Returns (false, [e]) ∧
    SchemaValidationErrors e = [] ∧
    Context e = "type: string" ∧
    SpecLine (Base e) = 4 ∧
    SpecCol (Base e) = 9.
Proof.
  intros locate schFlatErrs.
  destruct (ValidateSchema unit locate "schema" "fix the schema"
              (Some (Some (validationError schFlatErrs))) "type: string" []
              (Some (4, 9)))
    as [[ok errs]|] eqn:Hvalidate; [|discriminate Hvalidate].
  destruct (proj1 (ValidateSchema_result unit locate "schema" "fix the schema"
                     (Some (Some (validationError schFlatErrs)))
                     "type: string" [] (Some (4, 9))) ok errs Hvalidate)
    as (Hok & _ & Hfalse).
  destruct ok.
  { discriminate (proj1 Hok eq_refl). }
  destruct (Hfalse eq_refl)
    as (e & flat & keyNode & -> & Hjsch & Hkey & _ & Hnone & _ & _ & Hline &
        Hcol & _ & Hctx).
  injection Hjsch as <-. injection Hkey as <-.
  exists e. split; [reflexivity|]. split; [apply Hnone; reflexivity|].
  split; [exact Hctx|]. split; [exact Hline|exact Hcol].
Defined.

(** The request GET /b/1 against the template /a/{id} with the integer
    parameter id. *)
Lemma FindPath_panics_iff_witness :
  let pathItem := getItem [pathParam "id" helpers.Integer] [] in
  let document := contract {[ "/a/{id}" := pathItem ]} in
  FindPath strconv.ParseFloat_ok (GET "/b/1") document [("/a/{id}", pathItem)]
    = Panics.
Proof.
  intros pathItem document.
  apply (proj2 (FindPath_panics_iff strconv.ParseFloat_ok (GET "/b/1")
                  document [("/a/{id}", pathItem)])).
  right. exists [], "/a/{id}", pathItem, {| Op_Parameters := [] |}, [].
  split; [reflexivity|]. split; [constructor|]. split; [reflexivity|].
  split; [discriminate|]. split; [reflexivity|].
  apply Exists_cons_hd. left. split; [simpl; lia|].
  intros Hnone. apply Forall_cons in Hnone as [Hnone _].
  apply Hnone. reflexivity.
Defined.
